(** * xmk: a shallow embedding of the tokenizer, the rule engine and the
    executor, and the properties of its specification.

    The embedding follows the C source function by function.  A C string
    is the Rocq [string] of its bytes before the terminator; a pointer
    that may be [NULL] is an [option], an array cell that may also be
    uninitialised or dangling is a [ptr]; the globals and the [static]
    locals of the program are the fields of one record [xmk] threaded
    through a state-and-exit monad [M].

    Two revisions of the program are in the tree.  The definitions
    follow the later one; where the earlier one (XMK.C) differs on a
    point a property depends on, its variant is given beside it under
    a name ending in [_XMK_C].

    What is left abstract: [malloc], [realloc] and [fopen] of an
    existing file succeed, and the file buffer is its text, whatever
    the size of its block; a log or error line is recorded as the
    function and the format string it was issued with, not as the
    formatted text; the command interpreter and the file system are
    the [host] the program runs on. *)

From Stdlib Require Import String Ascii List ZArith Lia Bool Arith.
Import ListNotations.
Local Open Scope string_scope.
Local Open Scope nat_scope.

Set Implicit Arguments.

(** ** Characters and C strings *)

Definition NUL : ascii := "000"%char.
Definition TAB : ascii := "009"%char.
Definition LF : ascii := "010"%char.
Definition CR : ascii := "013"%char.
Definition SP : ascii := " "%char.
Definition QUOTE : ascii := "034"%char.
Definition CRLF : string := String CR (String LF EmptyString).
Definition quoted (s : string) : string :=
  String QUOTE (s ++ String QUOTE EmptyString).

Definition strlen (s : string) : nat := String.length s.

(** The bytes of [s] before its first NUL: what a C reader of a buffer
    holding [s] followed by a terminator sees. *)
Fixpoint cstr (s : string) : string :=
  match s with
  | EmptyString => EmptyString
  | String c r => if Ascii.eqb c NUL then EmptyString else String c (cstr r)
  end.

Fixpoint string_drop (k : nat) (s : string) : string :=
  match k, s with
  | 0, _ => s
  | S k', String _ r => string_drop k' r
  | S _, EmptyString => EmptyString
  end.

Fixpoint string_take (k : nat) (s : string) : string :=
  match k, s with
  | 0, _ => EmptyString
  | S k', String c r => String c (string_take k' r)
  | S _, EmptyString => EmptyString
  end.

(** [strncmp a b k]: the sign of the first difference among the first
    [k] bytes, the end of a string counting as byte 0. *)
Fixpoint strncmp (a b : string) (k : nat) : Z :=
  match k with
  | 0 => 0%Z
  | S k' =>
      match a, b with
      | EmptyString, EmptyString => 0%Z
      | EmptyString, String d _ => (- Z.of_nat (nat_of_ascii d))%Z
      | String c _, EmptyString => Z.of_nat (nat_of_ascii c)
      | String c a', String d b' =>
          if Ascii.eqb c d then strncmp a' b' k'
          else (Z.of_nat (nat_of_ascii c) - Z.of_nat (nat_of_ascii d))%Z
      end
  end.

(** [strcmp] is only ever tested against 0. *)
Definition strcmp (a b : string) : Z :=
  strncmp a b (S (Nat.max (strlen a) (strlen b))).

Fixpoint is_prefix (p s : string) : bool :=
  match p, s with
  | EmptyString, _ => true
  | String c p', String d s' => Ascii.eqb c d && is_prefix p' s'
  | String _ _, EmptyString => false
  end.

(** [strstr s p] as a truth value: [p] occurs somewhere in [s]. *)
Fixpoint strstr (s p : string) : bool :=
  is_prefix p s ||
  match s with
  | EmptyString => false
  | String _ r => strstr r p
  end.

(** ** Pointers into the heap *)

Inductive ptr (A : Type) : Type :=
| Null
| Ptr (a : A)
| Wild                 (* allocated, never written *)
| Dangling.            (* the object it pointed to was freed *)
Arguments Null {A}.
Arguments Wild {A}.
Arguments Dangling {A}.

(** Reasons for which the C program has no defined behaviour. *)
Inductive ub : Type :=
| OutOfBounds
| NullDeref
| Indeterminate
| BufferOverflow
| UseAfterFree.

(** ** Static data *)

Record config_t : Type := mkConfig {
  path : option string;
  preprocess : bool;
  verbose_flag : bool;
  extra_verbose_flag : bool;
  quiet : bool
}.

Inductive parse_state : Type := SEARCHING | CHECKING.

Inductive rule : Type := DEFINE_AS | BUILD | DEPENDS_ON | CREATED_USING | TARGET.

Inductive recipe : Type := KEYWORD | SYMBOL | LIST | NESTED_RULE | END.

Definition rule_eqb (a b : rule) : bool :=
  match a, b with
  | DEFINE_AS, DEFINE_AS | BUILD, BUILD | DEPENDS_ON, DEPENDS_ON
  | CREATED_USING, CREATED_USING | TARGET, TARGET => true
  | _, _ => false
  end.

(** ** The host: files and the process-spawn primitive *)

Inductive os : Type := WIN32 | POSIX.

Record file : Type := mkFile {
  contents : string;
  write_time : option Z      (* [None]: GetFileTime fails on it *)
}.

Definition filesystem : Type := string -> option file.

Record host : Type := mkHost {
  platform : os;
  files : filesystem;
  (* build(command): exit status and the files afterwards *)
  shell : string -> filesystem -> Z * filesystem
}.

(** ** Observable events *)

Inductive event : Type :=
| Stdout (s : string)              (* the text of a printf on stdout *)
| Logv (func fmt : string)        (* LOGV, emitted when verbose *)
| Logvv (func fmt : string)       (* LOGVV, emitted when extra verbose *)
| Error (func fmt : string)       (* fatal_error's message on stderr *)
| Spawn (command : string).       (* a call of build() *)

(** ** The program state *)

Inductive define_state : Type := GET_NAME | GET_VALUE.

Record defines_t : Type := mkDefines {
  names : list string;
  values : list string;
  n : nat;
  selected_i : nat
}.

(** The [list] and [list_size] slots of a [syntax_rule]. *)
Record rule_store : Type := mkStore {
  list_ : option (list (ptr (list (ptr string))));
  list_size : option (list (option nat))
}.

(** The [static] locals of [check_rule]; the arrays have
    [MAX_RECURSION] cells. *)
Definition cells : Type := (nat * nat)%type.

Record levels : Type := mkLevels {
  step_i : cells;
  keyword_i : cells;
  recipe_i : cells;
  recursion_level : nat
}.

Record xmk : Type := mkXmk {
  config : config_t;
  build_target : option string;
  current_scope : option string;
  file_buffer : option string;
  line : nat;
  defines : defines_t;
  add_define_state : define_state;
  stores : rule -> rule_store;
  lv : levels;
  sys : host;
  trace : list event
}.

Definition MAX_RECURSION : nat := 2.

Definition no_store : rule_store := mkStore None None.

Definition initial (c : config_t) (h : host) : xmk :=
  mkXmk c None None None 0 (mkDefines [] [] 0 0) GET_NAME
        (fun _ => no_store)
        (mkLevels (0, 0) (0, 0) (0, 0) 0) h [].

Definition set_config (c : config_t) (s : xmk) : xmk :=
  mkXmk c s.(build_target) s.(current_scope) s.(file_buffer) s.(line)
        s.(defines) s.(add_define_state) s.(stores) s.(lv) s.(sys) s.(trace).
Definition set_build (b : option string) (s : xmk) : xmk :=
  mkXmk s.(config) b s.(current_scope) s.(file_buffer) s.(line)
        s.(defines) s.(add_define_state) s.(stores) s.(lv) s.(sys) s.(trace).
Definition set_scope (c : option string) (s : xmk) : xmk :=
  mkXmk s.(config) s.(build_target) c s.(file_buffer) s.(line)
        s.(defines) s.(add_define_state) s.(stores) s.(lv) s.(sys) s.(trace).
Definition set_buffer (b : option string) (s : xmk) : xmk :=
  mkXmk s.(config) s.(build_target) s.(current_scope) b s.(line)
        s.(defines) s.(add_define_state) s.(stores) s.(lv) s.(sys) s.(trace).
Definition set_line (l : nat) (s : xmk) : xmk :=
  mkXmk s.(config) s.(build_target) s.(current_scope) s.(file_buffer) l
        s.(defines) s.(add_define_state) s.(stores) s.(lv) s.(sys) s.(trace).
Definition set_defines (d : defines_t) (s : xmk) : xmk :=
  mkXmk s.(config) s.(build_target) s.(current_scope) s.(file_buffer) s.(line)
        d s.(add_define_state) s.(stores) s.(lv) s.(sys) s.(trace).
Definition set_define_state (d : define_state) (s : xmk) : xmk :=
  mkXmk s.(config) s.(build_target) s.(current_scope) s.(file_buffer) s.(line)
        s.(defines) d s.(stores) s.(lv) s.(sys) s.(trace).
Definition set_stores (f : rule -> rule_store) (s : xmk) : xmk :=
  mkXmk s.(config) s.(build_target) s.(current_scope) s.(file_buffer) s.(line)
        s.(defines) s.(add_define_state) f s.(lv) s.(sys) s.(trace).
Definition set_lv (l : levels) (s : xmk) : xmk :=
  mkXmk s.(config) s.(build_target) s.(current_scope) s.(file_buffer) s.(line)
        s.(defines) s.(add_define_state) s.(stores) l s.(sys) s.(trace).
Definition set_sys (h : host) (s : xmk) : xmk :=
  mkXmk s.(config) s.(build_target) s.(current_scope) s.(file_buffer) s.(line)
        s.(defines) s.(add_define_state) s.(stores) s.(lv) h s.(trace).
Definition set_trace (t : list event) (s : xmk) : xmk :=
  mkXmk s.(config) s.(build_target) s.(current_scope) s.(file_buffer) s.(line)
        s.(defines) s.(add_define_state) s.(stores) s.(lv) s.(sys) t.

Definition set_store (r : rule) (v : rule_store) (s : xmk) : xmk :=
  set_stores (fun r' => if rule_eqb r' r then v else s.(stores) r') s.

(** ** The monad: state, [exit()] and undefined behaviour *)

Inductive result (A : Type) : Type :=
| Ret (a : A) (s : xmk)
| Exit (code : Z) (s : xmk)
| Undefined (u : ub) (s : xmk)
| OutOfFuel.
Arguments Undefined {A}.
Arguments OutOfFuel {A}.
Arguments Exit {A}.

Definition M (A : Type) : Type := xmk -> result A.

Definition ret {A} (a : A) : M A := fun s => Ret a s.

Definition bind {A B} (m : M A) (f : A -> M B) : M B :=
  fun s => match m s with
           | Ret a s' => f a s'
           | Exit c s' => Exit c s'
           | Undefined u s' => Undefined u s'
           | OutOfFuel => OutOfFuel
           end.

Declare Scope xmk_scope.
Delimit Scope xmk_scope with xmk.
Notation "x <- m ;; k" := (bind m (fun x => k))
  (at level 61, m at next level, right associativity) : xmk_scope.
Notation "' p <- m ;; k" := (bind m (fun x => match x with p => k end))
  (at level 61, p pattern, m at next level, right associativity) : xmk_scope.
Notation "m ;; k" := (bind m (fun _ => k))
  (at level 61, right associativity) : xmk_scope.
Local Open Scope xmk_scope.

Definition get : M xmk := fun s => Ret s s.
Definition modify (f : xmk -> xmk) : M unit := fun s => Ret tt (f s).
Definition undefined {A} (u : ub) : M A := fun s => Undefined u s.
Definition emit (e : event) : M unit :=
  modify (fun s => set_trace (s.(trace) ++ [e]) s).

(** Array reads and writes; an index outside the array is undefined. *)
Definition load {A} (l : list A) (i : nat) : M A :=
  match nth_error l i with
  | Some a => ret a
  | None => undefined OutOfBounds
  end.

Fixpoint update {A} (l : list A) (i : nat) (a : A) : option (list A) :=
  match l, i with
  | [], _ => None
  | _ :: r, 0 => Some (a :: r)
  | x :: r, S i' => option_map (cons x) (update r i' a)
  end.

Definition store {A} (l : list A) (i : nat) (a : A) : M (list A) :=
  match update l i a with
  | Some l' => ret l'
  | None => undefined OutOfBounds
  end.

Definition deref {A} (p : ptr A) : M A :=
  match p with
  | Ptr a => ret a
  | Null => undefined NullDeref
  | Wild => undefined Indeterminate
  | Dangling => undefined UseAfterFree
  end.

Definition defined {A} (o : option A) : M A :=
  match o with
  | Some a => ret a
  | None => undefined Indeterminate
  end.

(** [realloc] to [k] cells: the old cells that fit are kept, new ones
    hold whatever [fill] stands for. *)
Definition realloc {A} (l : list A) (k : nat) (fill : A) : list A :=
  firstn k l ++ repeat fill (k - length l).

(** ** Logging and fatal errors *)

Definition verbose : M bool := s <- get ;; ret s.(config).(verbose_flag).
Definition extra_verbose : M bool :=
  s <- get ;; ret s.(config).(extra_verbose_flag).
Definition preprocess_only : M bool := s <- get ;; ret s.(config).(preprocess).

Definition LOGV (func fmt : string) : M unit :=
  v <- verbose ;; if v then emit (Logv func fmt) else ret tt.

Definition LOGVV (func fmt : string) : M unit :=
  v <- extra_verbose ;; if v then emit (Logvv func fmt) else ret tt.

(** [cleanup] returns before doing anything. *)
Definition cleanup : M unit := ret tt.

Definition FATAL_ERROR {A} (func fmt : string) : M A :=
  fun s => match (emit (Error func fmt) ;; cleanup) s with
           | Ret _ s' => Exit 1 s'
           | Exit c s' => Exit c s'
           | Undefined u s' => Undefined u s'
           | OutOfFuel => OutOfFuel
           end.

Definition out_of_fuel {A} : M A := fun _ => OutOfFuel.

(** ** The model store: [target_exists] *)

Definition is_zero (z : Z) : bool := Z.eqb z 0.

(** The loop of [target_exists]: [k] iterations left, at index [i]. *)
Fixpoint target_exists_from (target : string) (i k : nat) : M (option nat) :=
  match k with
  | 0 => ret None
  | S k' =>
      s <- get ;;
      match (s.(stores) TARGET).(list_) with
      | None => undefined NullDeref
      | Some l =>
          p <- load l 0 ;;
          tnames <- deref p ;;
          q <- load tnames i ;;
          t <- deref q ;;
          if is_zero (strcmp t target) then ret (Some i)
          else target_exists_from target (S i) k'
      end
  end.

Definition target_exists (target : option string) : M (option nat) :=
  s <- get ;;
  match target, (s.(stores) TARGET).(list_size) with
  | Some t, Some sz =>
      c <- load sz 0 ;;
      n_targets <- defined c ;;
      target_exists_from t 0 n_targets
  | _, _ =>
      emit (Stdout ("No targets have been defined." ++ CRLF)) ;;
      ret None
  end.

(** ** The tokenizer *)

Definition is_blank (ch : ascii) : bool :=
  Ascii.eqb ch SP || Ascii.eqb ch TAB || Ascii.eqb ch LF || Ascii.eqb ch CR.

(** The first loop of [get_word] over the text from [*from] on: it
    stops on the terminator ([None]) or on the first byte of a word. *)
Fixpoint skip (text : string) (comment nl : bool) (from ln : nat)
  : option string * nat * nat * bool :=
  match text with
  | EmptyString => (None, from, ln, nl)
  | String ch rest =>
      if Ascii.eqb ch "#" then skip rest true nl (S from) ln
      else if Ascii.eqb ch NUL then (None, from, ln, nl)
      else if Ascii.eqb ch LF then skip rest false true (S from) (S ln)
      else if Ascii.eqb ch CR || Ascii.eqb ch TAB || Ascii.eqb ch SP
           then skip rest comment nl (S from) ln
      else if comment then skip rest comment nl (S from) ln
      else (Some text, from, ln, nl)
  end.

Definition LENGTHOF_word : nat := 255.

(** The guard of the copying loop on the byte under the cursor. *)
Definition in_word (quotes : bool) (ch : ascii) : bool :=
  if quotes then negb (Ascii.eqb ch QUOTE) else negb (is_blank ch).

(** The copying loop: the bytes copied, their number [i] and the byte
    under the cursor on exit.  The terminator is not a blank, so the
    loop copies it and reads on after the end of the text ([None]). *)
Fixpoint scan_word (quotes : bool) (text : string) (i : nat)
  : option (string * nat * ascii) :=
  match text with
  | EmptyString =>
      if i <? LENGTHOF_word - 1 then None else Some (EmptyString, i, NUL)
  | String ch rest =>
      if in_word quotes ch && (i <? LENGTHOF_word - 1)
      then match scan_word quotes rest (S i) with
           | Some (w, i', c) => Some (String ch w, i', c)
           | None => None
           end
      else Some (EmptyString, i, ch)
  end.

Fixpoint before_dot (w : string) : string :=
  match w with
  | EmptyString => EmptyString
  | String c r => if Ascii.eqb c "." then EmptyString else String c (before_dot r)
  end.

Fixpoint from_dot (w : string) : string :=
  match w with
  | EmptyString => EmptyString
  | String c r => if Ascii.eqb c "." then w else from_dot r
  end.

(** [basename] has room for 254 bytes and a terminator. *)
Definition get_basename (word : string) : M string :=
  let b := before_dot word in
  if strlen b <? 255 then ret b else undefined BufferOverflow.

(** [ext] has room for 9 bytes and a terminator; without a dot in the
    name, [w[1]] is read after the terminator of the word. *)
Definition get_extension (word : string) : M string :=
  match from_dot word with
  | EmptyString => undefined OutOfBounds
  | String _ r =>
      let w := match r with EmptyString => "." | _ => r end in
      if strlen w <? 10 then ret w else undefined BufferOverflow
  end.

Definition is_digit (c : ascii) : bool :=
  (nat_of_ascii "0" <=? nat_of_ascii c) && (nat_of_ascii c <=? nat_of_ascii "9").

Definition digit_value (c : ascii) : nat := nat_of_ascii c - nat_of_ascii "0".

(** The digits of [s] read in [base] until the first byte that is not a
    digit of that base. *)
Fixpoint digits_value (base : nat) (s : string) (acc : nat) : nat :=
  match s with
  | EmptyString => acc
  | String c r =>
      if is_digit c && (digit_value c <? base)
      then digits_value base r (acc * base + digit_value c)
      else acc
  end.

(** [strtol (s, NULL, 0)] on a string of decimal digits: a leading 0
    selects base 8, anything else base 10. *)
Definition strtol0 (s : string) : nat :=
  match s with
  | String "0" r => digits_value 8 r 0
  | _ => digits_value 10 s 0
  end.

Inductive dep_state : Type := OPENING_BRACKET | INDEX | CLOSING_BRACKET.

(** The scanning loop of [get_dependency] from [word + strlen ("$(dep")]:
    [room] is the bound the loop compares [dep_i_str_idx] with before it
    stores a digit; [dep_i_str] holds the digits stored so far. *)
Fixpoint dep_scan (room : string -> nat) (text : string) (st : dep_state)
         (dep_i_str : string) (idx : nat) : M (string * nat) :=
  match text with
  | EmptyString => ret (dep_i_str, idx)
  | String letter rest =>
      match st with
      | OPENING_BRACKET =>
          dep_scan room rest (if Ascii.eqb letter "[" then INDEX else st)
                   dep_i_str idx
      | INDEX =>
          if is_digit letter then
            let '(str', idx') :=
              if idx <? room dep_i_str
              then (dep_i_str ++ String letter EmptyString, S idx)
              else (dep_i_str, idx) in
            match rest with
            | EmptyString =>
                emit (Stdout ("Missing " ++ quoted "]"
                              ++ " character on dependency index" ++ CRLF)) ;;
                dep_scan room rest st str' idx'
            | String "]" _ => dep_scan room rest CLOSING_BRACKET str' idx'
            | _ => dep_scan room rest st str' idx'
            end
          else FATAL_ERROR "get_dependency" "Invalid index %d"
      | CLOSING_BRACKET => dep_scan room rest st dep_i_str idx
      end
  end.

(** The last block of [get_dependency]: the dependency of the current
    scope at [dep_index], [word] itself when the scope is no target. *)
Definition dependency_at (dep_index : nat) (word : string) : M string :=
  s <- get ;;
  found <- target_exists s.(current_scope) ;;
  match found with
  | Some i =>
      s <- get ;;
      match (s.(stores) DEPENDS_ON).(list_), (s.(stores) DEPENDS_ON).(list_size) with
      | Some l, Some sz =>
          c <- load sz i ;;
          target_deps <- defined c ;;
          (if target_deps =? 0
           then FATAL_ERROR "get_dependency"
                            "No dependencies are available for target %s"
           else ret tt) ;;
          if dep_index <? target_deps then
            p <- load l i ;;
            deps <- deref p ;;
            q <- load deps dep_index ;;
            deref q
          else FATAL_ERROR "get_dependency"
                           "Index %d exceeds number of defined dependencies"
      | _, _ =>
          FATAL_ERROR "get_dependency" "Dependencies list has not been allocated"
      end
  | None => ret word
  end.

Definition get_dependency_with (room : string -> nat) (word : string)
  : M string :=
  '(dep_i_str, idx) <- dep_scan room (string_drop (strlen "$(dep") word)
                                OPENING_BRACKET EmptyString 0 ;;
  (* dep_i_str[++dep_i_str_idx] = 0 in an array of 8 *)
  (if S idx <? 8 then ret tt else undefined OutOfBounds) ;;
  dependency_at (strtol0 dep_i_str) word.

(** This revision bounds the digits by [strlen (dep_i_str)]. *)
Definition get_dependency : string -> M string := get_dependency_with strlen.

(** The earlier revision (XMK.C) bounds them by [STATIC_STRLEN (dep_i_str)],
    the capacity of the array less its terminator. *)
Definition get_dependency_XMK_C : string -> M string :=
  get_dependency_with (fun _ => 8 - 1).

Fixpoint is_define_from (name : string) (i k : nat) : M bool :=
  match k with
  | 0 => ret false
  | S k' =>
      s <- get ;;
      d <- load s.(defines).(names) i ;;
      if is_zero (strcmp d name) then
        LOGVV "is_define" "Detected define %s->%s" ;;
        modify (fun s => set_defines
                  (mkDefines s.(defines).(names) s.(defines).(values)
                             s.(defines).(n) i) s) ;;
        ret true
      else is_define_from name (S i) k'
  end.

Definition is_define (name : string) : M bool :=
  s <- get ;; is_define_from name 0 s.(defines).(n).

(** [expand_define (&buffer[from], word)]: [true] when the new buffer is
    returned, [false] for [NULL] (nothing follows the use).  The new
    buffer is the text left by the two [strcpy]: what precedes the use,
    the value, what follows it.  [realloc] is asked for [new_length]
    bytes, which leaves the terminator of that text, at index
    [new_length], out of the block; the sizes of heap blocks are not
    part of the state, and the model keeps the text. *)
Definition expand_define (from : nat) (word : string) : M bool :=
  s <- get ;;
  match s.(file_buffer) with
  | None => undefined NullDeref
  | Some buffer =>
      let before_length := from in
      let after := cstr (string_drop (from + strlen word) buffer) in
      match after with
      | EmptyString => ret false
      | _ =>
          value <- load s.(defines).(values) s.(defines).(selected_i) ;;
          modify (set_buffer
                    (Some (string_take before_length buffer ++ value ++ after))) ;;
          LOGVV "expand_define" "Resulting file buffer: %s" ;;
          ret true
      end
  end.

Definition variable (fmt : string) (f : string -> M string) : M string :=
  s <- get ;;
  match s.(current_scope) with
  | Some scope => f scope
  | None => FATAL_ERROR "get_word" fmt
  end.

(** [get_word (file_buffer, &from, &newline_detected)]: the word
    ([None] at the end of the buffer), the new [from] and the flag.
    [fuel] bounds the re-tokenizations after a define is expanded. *)
Fixpoint get_word (fuel : nat) (from : nat) : M (option string * nat * bool) :=
  match fuel with
  | 0 => out_of_fuel
  | S fuel' =>
    s <- get ;;
    match s.(file_buffer) with
    | None => FATAL_ERROR "get_word" "Invalid given pointers"
    | Some buffer =>
      if strlen buffer <? from then undefined OutOfBounds else
      match skip (string_drop from buffer) false false from s.(line) with
      | (None, from, ln, nl) => modify (set_line ln) ;; ret (None, from, nl)
      | (Some text, from, ln, nl) =>
        modify (set_line ln) ;;
        let orig_from := from in
        let quotes := is_prefix (String QUOTE EmptyString) text in
        let '(text, from) :=
          if quotes then (string_drop 1 text, S from) else (text, from) in
        match scan_word quotes text 0 with
        | None => undefined OutOfBounds
        | Some (copied, i, ch) =>
          let from := from + i in
          (if LENGTHOF_word - 1 <=? i
           then FATAL_ERROR "get_word" "maximum word length has been exceeded"
           else ret tt) ;;
          (if Ascii.eqb ch LF then modify (fun s => set_line (S s.(line)) s)
           else ret tt) ;;
          let from := if quotes then S from else from in
          let word := cstr copied in
          if negb quotes && (1 <? strlen word) then
            match word with
            | String "$" (String "$" _) => ret (Some (string_drop 1 word), from, nl)
            | String "$" (String "(" _) =>
                if is_zero (strcmp word "$(target)") then
                  w <- variable "$(target) must be used inside target scope" ret ;;
                  ret (Some w, from, nl)
                else if is_zero (strcmp word "$(target_name)") then
                  w <- variable "$(target_name) must be used inside target scope"
                                get_basename ;;
                  ret (Some w, from, nl)
                else if is_zero (strcmp word "$(target_ext)") then
                  w <- variable "$(target_ext) must be used inside target scope"
                                get_extension ;;
                  ret (Some w, from, nl)
                else if strstr word "$(dep" then
                  w <- get_dependency word ;;
                  ret (Some w, from, nl)
                else ret (Some word, from, nl)
            | String "$" name =>
                d <- is_define name ;;
                if d then
                  ok <- expand_define orig_from word ;;
                  if ok then get_word fuel' orig_from
                  else FATAL_ERROR "get_word" "Invalid given pointers"
                else FATAL_ERROR "get_word" "Undefined symbol %s"
            | _ => ret (Some word, from, nl)
            end
          else if negb quotes && is_prefix "$" word then
            FATAL_ERROR "get_word" "Expected symbol after escaped $ symbol"
          else ret (Some word, from, nl)
        end
      end
    end
  end.

(** ** Symbol callbacks *)

Definition set_build_target (target : string) : M unit :=
  s <- get ;;
  match s.(build_target) with
  | None =>
      modify (set_build (Some target)) ;;
      LOGV "set_build_target" "Build target set to %s"
  | Some _ => FATAL_ERROR "set_build_target" "Only one target can be defined"
  end.

Fixpoint times (k : nat) (m : M unit) : M unit :=
  match k with
  | 0 => ret tt
  | S k' => m ;; times k' m
  end.

(** The duplicate search of [add_target]. *)
Fixpoint repeated_from (target : string) (tnames : list (ptr string))
         (i k : nat) : M bool :=
  match k with
  | 0 => ret false
  | S k' =>
      l_target <- load tnames i ;;
      match l_target with
      | Null => repeated_from target tnames (S i) k'
      | _ =>
          t <- deref l_target ;;
          if is_zero (strcmp t target) then ret true
          else repeated_from target tnames (S i) k'
      end
  end.

Definition add_target (target : string) : M unit :=
  s <- get ;;
  let targets := s.(stores) TARGET in
  repeated <-
    match targets.(list_), targets.(list_size) with
    | Some l, Some sz =>
        c <- load sz 0 ;;
        k <- defined c ;;
        match k with
        | 0 => ret false
        | _ =>
            p <- load l 0 ;;
            tnames <- deref p ;;
            repeated_from target tnames 0 k
        end
    | _, _ => ret false
    end ;;
  if negb repeated then
    (* allocate or grow *)
    match targets.(list_), targets.(list_size) with
    | None, None =>
        modify (set_store TARGET (mkStore (Some [Ptr [Wild]]) (Some [Some 0])))
    | None, Some _ => undefined NullDeref
    | Some l, sz =>
        p <- load l 0 ;;
        match p with
        | Null => ret tt
        | _ =>
            tnames <- deref p ;;
            match sz with
            | None => undefined NullDeref
            | Some sz' =>
                c <- load sz' 0 ;;
                k <- defined c ;;
                l' <- store l 0 (Ptr (realloc tnames (k + 1) Wild)) ;;
                modify (set_store TARGET (mkStore (Some l') sz))
            end
        end
    end ;;
    s <- get ;;
    let targets := s.(stores) TARGET in
    match targets.(list_), targets.(list_size) with
    | Some l, Some sz =>
        p <- load l 0 ;;
        match p with
        | Null => FATAL_ERROR "add_target"
                              "An error happened when constructing target list"
        | _ =>
            tnames <- deref p ;;
            c <- load sz 0 ;;
            k <- defined c ;;
            tnames' <- store tnames k (Ptr target) ;;
            l' <- store l 0 (Ptr tnames') ;;
            sz' <- store sz 0 (Some (S k)) ;;
            modify (set_store TARGET (mkStore (Some l') (Some sz'))) ;;
            LOGV "add_target" "Targets list: %zu" ;;
            times (S k) (LOGV "add_target" "%zu/%zu: %s")
        end
    | _, _ => FATAL_ERROR "add_target"
                          "An error happened when constructing target list"
    end
  else FATAL_ERROR "add_target" "Target %s has already been defined".

Definition add_define (define : string) : M unit :=
  s <- get ;;
  let d := s.(defines) in
  match s.(add_define_state) with
  | GET_NAME =>
      nm <- store (realloc d.(names) (d.(n) + 1) EmptyString) d.(n) define ;;
      modify (set_defines (mkDefines nm d.(values) d.(n) d.(selected_i))) ;;
      LOGVV "add_define" "Detected new define name %s" ;;
      modify (set_define_state GET_VALUE)
  | GET_VALUE =>
      vl <- store (realloc d.(values) (d.(n) + 1) EmptyString) d.(n) define ;;
      modify (set_defines (mkDefines d.(names) vl d.(n) d.(selected_i))) ;;
      LOGVV "add_define" "Detected new value for %s: %s" ;;
      modify (set_define_state GET_NAME) ;;
      modify (fun s => set_defines
                (mkDefines s.(defines).(names) s.(defines).(values)
                           (s.(defines).(n) + 1) s.(defines).(selected_i)) s)
  end.

(** ** Scope callbacks *)

(** An index [k - 1] computed in [size_t]: nothing lies at the index
    that 0 - 1 wraps to. *)
Definition before (k : nat) : M nat :=
  match k with
  | 0 => undefined OutOfBounds
  | S k' => ret k'
  end.

Definition create_basic_tree (dep_rule : rule) : M unit :=
  s <- get ;;
  sz <- match (s.(stores) TARGET).(list_size) with
        | Some sz => ret sz
        | None => undefined NullDeref
        end ;;
  c <- load sz 0 ;;
  n_targets <- defined c ;;
  l <- match (s.(stores) TARGET).(list_) with
       | Some l => ret l
       | None => undefined NullDeref
       end ;;
  p <- load l 0 ;;
  tnames <- deref p ;;
  last <- before n_targets ;;
  q <- load tnames last ;;
  target_name <- deref q ;;
  modify (set_scope (Some target_name)) ;;
  let dr := s.(stores) dep_rule in
  match dr.(list_), dr.(list_size) with
  | None, None =>
      modify (set_store dep_rule (mkStore (Some [Null]) (Some [Some 0])))
  | Some dl, Some dsz =>
      dl' <- store (realloc dl n_targets Wild) last Null ;;
      dsz' <- store (realloc dsz n_targets None) last (Some 0) ;;
      modify (set_store dep_rule (mkStore (Some dl') (Some dsz')))
  | _, _ => ret tt
  end.

Definition target_scope_block_opened : M parse_state :=
  s <- get ;;
  (match (s.(stores) TARGET).(list_size) with
   | None =>
       modify (set_store TARGET
                 (mkStore (s.(stores) TARGET).(list_) (Some [Some 0])))
   | Some _ => ret tt
   end) ;;
  create_basic_tree DEPENDS_ON ;;
  create_basic_tree CREATED_USING ;;
  ret CHECKING.

Definition created_using_scope_block_opened : M parse_state := ret CHECKING.

Definition depends_on_scope_block_opened : M parse_state := ret CHECKING.

(** ** The rule table *)

Record syntax_rule : Type := mkRule {
  keywords : list string;                 (* NULL-terminated in C *)
  recipe_list : list (list recipe);       (* NULL-terminated in C *)
  symbol_callback : option (string -> M unit);
  scope_block_opened : option (M parse_state);
  scope_block_opened_str : option string
}.

Definition syntax_rules (r : rule) : syntax_rule :=
  match r with
  | BUILD =>
      mkRule ["build"] [[KEYWORD; SYMBOL; END]]
             (Some set_build_target) None None
  | TARGET =>
      mkRule ["target"] [[KEYWORD; SYMBOL; NESTED_RULE; END]]
             (Some add_target) (Some target_scope_block_opened)
             (Some "target_scope_block_opened")
  | DEFINE_AS =>
      mkRule ["define"; "as"]
             [[KEYWORD; SYMBOL; KEYWORD; SYMBOL; END];
              [KEYWORD; LIST; KEYWORD; SYMBOL; END]]
             (Some add_define) None None
  | CREATED_USING =>
      mkRule ["created"; "using"] [[KEYWORD; KEYWORD; LIST; END]]
             None (Some created_using_scope_block_opened)
             (Some "created_using_scope_block_opened")
  | DEPENDS_ON =>
      mkRule ["depends"; "on"] [[KEYWORD; KEYWORD; LIST; END]]
             None (Some depends_on_scope_block_opened)
             (Some "depends_on_scope_block_opened")
  end.

(** The rules in the order of their indices in the C array. *)
Definition rule_order : list rule :=
  [DEFINE_AS; BUILD; DEPENDS_ON; CREATED_USING; TARGET].

(** A cell of a NULL-terminated array: the cell after the last entry
    holds NULL, nothing lies beyond it. *)
Definition load0 {A} (l : list A) (i : nat) : M (option A) :=
  match nth_error l i with
  | Some a => ret (Some a)
  | None => if i =? length l then ret None else undefined OutOfBounds
  end.

(** ** The rule engine *)

Definition one_char (word : string) : option ascii :=
  match word with
  | String c EmptyString => Some c
  | _ => None
  end.

(** [scope (rule, word, state, &finished)]: the returned flag and the
    new [*state]. *)
Definition scope (r : rule) (word : string) (state : parse_state)
  : M (bool * parse_state) :=
  match one_char word with
  | Some c =>
      if Ascii.eqb c "{" then
        LOGVV "scope" "Scope block opened" ;;
        LOGVV "scope" "Scope block callback: %p (%s)" ;;
        match (syntax_rules r).(scope_block_opened) with
        | Some callback => st <- callback ;; ret (true, st)
        | None => FATAL_ERROR "scope" "Keyword %s does not accept %c"
        end
      else if Ascii.eqb c "}" then ret (true, SEARCHING)
      else ret (false, state)
  | None => ret (false, state)
  end.

Definition bump (sz : list (option nat)) (i : nat) : M (list (option nat)) :=
  c <- load sz i ;;
  v <- defined c ;;
  store sz i (Some (S v)).

Definition some_or_null {A} (o : option A) : M A :=
  match o with
  | Some a => ret a
  | None => undefined NullDeref
  end.

Definition handle_list (r : rule) (word : string) (state : parse_state)
           (newline_detected : bool) : M (bool * parse_state) :=
  s <- get ;;
  tsz <- some_or_null (s.(stores) TARGET).(list_size) ;;
  c <- load tsz 0 ;;
  n_targets <- defined c ;;
  let current_target := before n_targets in
  '(opened, state) <- scope r word state ;;
  if opened then ret (true, state) else
  s <- get ;;
  let st := s.(stores) r in
  match st.(list_) with
  | None =>
      match st.(list_size) with
      | Some sz =>
          ct <- current_target ;;
          sz' <- bump sz ct ;;
          modify (set_store r (mkStore (Some [Ptr [Ptr word]]) (Some sz'))) ;;
          ret (true, state)
      | None =>
          modify (set_store r (mkStore (Some [Wild]) None)) ;;
          FATAL_ERROR "handle_list" "Some error has been detected"
      end
  | Some l =>
      ct <- current_target ;;
      p <- load l ct ;;
      match p with
      | Null =>
          l' <- store l ct (Ptr [Ptr word]) ;;
          sz <- some_or_null st.(list_size) ;;
          sz' <- bump sz ct ;;
          modify (set_store r (mkStore (Some l') (Some sz'))) ;;
          ret (true, state)
      | _ =>
          entries <- deref p ;;
          if newline_detected then
            sz <- some_or_null st.(list_size) ;;
            sz' <- bump sz ct ;;
            c <- load sz' ct ;;
            new_length <- defined c ;;
            last <- before new_length ;;
            entries' <- store (realloc entries new_length Wild) last (Ptr word) ;;
            l' <- store l ct (Ptr entries') ;;
            modify (set_store r (mkStore (Some l') (Some sz'))) ;;
            ret (true, state)
          else
            match st.(list_size) with
            | Some sz =>
                c <- load sz ct ;;
                k <- defined c ;;
                last <- before k ;;
                str <- load entries last ;;
                match str with
                | Null =>
                    entries' <- store entries last (Ptr word) ;;
                    l' <- store l ct (Ptr entries') ;;
                    sz' <- bump sz ct ;;
                    modify (set_store r (mkStore (Some l') (Some sz'))) ;;
                    ret (true, state)
                | _ =>
                    old <- deref str ;;
                    entries' <- store entries last (Ptr (old ++ " " ++ word)) ;;
                    l' <- store l ct (Ptr entries') ;;
                    modify (set_store r (mkStore (Some l') (Some sz))) ;;
                    ret (true, state)
                end
            | None => FATAL_ERROR "handle_list" "Some error has been detected"
            end
      end
  end.

Definition add_symbol (r : rule) (word : string) : M unit :=
  match (syntax_rules r).(symbol_callback) with
  | Some callback => callback word
  | None => ret tt
  end.

(** Accessors of the [static] arrays of [check_rule] at the current
    recursion level. *)
Definition level : M nat := s <- get ;; ret s.(lv).(recursion_level).

Definition set_level (k : nat) : M unit :=
  modify (fun s => set_lv (mkLevels s.(lv).(step_i) s.(lv).(keyword_i)
                                    s.(lv).(recipe_i) k) s).

(** A cell of an array of [MAX_RECURSION] counters. *)
Definition cell (a : cells) (i : nat) : option nat :=
  match i with
  | 0 => Some (fst a)
  | 1 => Some (snd a)
  | _ => None
  end.

Definition set_cell (a : cells) (i v : nat) : option cells :=
  match i with
  | 0 => Some (v, snd a)
  | 1 => Some (fst a, v)
  | _ => None
  end.

Definition in_bounds {A} (o : option A) : M A :=
  match o with
  | Some a => ret a
  | None => undefined OutOfBounds
  end.

Definition get_step_i : M nat :=
  s <- get ;; in_bounds (cell s.(lv).(step_i) s.(lv).(recursion_level)).
Definition get_keyword_i : M nat :=
  s <- get ;; in_bounds (cell s.(lv).(keyword_i) s.(lv).(recursion_level)).
Definition get_recipe_i : M nat :=
  s <- get ;; in_bounds (cell s.(lv).(recipe_i) s.(lv).(recursion_level)).

Definition set_step_i (v : nat) : M unit :=
  s <- get ;;
  a <- in_bounds (set_cell s.(lv).(step_i) s.(lv).(recursion_level) v) ;;
  modify (fun s => set_lv (mkLevels a s.(lv).(keyword_i) s.(lv).(recipe_i)
                                    s.(lv).(recursion_level)) s).
Definition set_keyword_i (v : nat) : M unit :=
  s <- get ;;
  a <- in_bounds (set_cell s.(lv).(keyword_i) s.(lv).(recursion_level) v) ;;
  modify (fun s => set_lv (mkLevels s.(lv).(step_i) a s.(lv).(recipe_i)
                                    s.(lv).(recursion_level)) s).
Definition set_recipe_i (v : nat) : M unit :=
  s <- get ;;
  a <- in_bounds (set_cell s.(lv).(recipe_i) s.(lv).(recursion_level) v) ;;
  modify (fun s => set_lv (mkLevels s.(lv).(step_i) s.(lv).(keyword_i) a
                                    s.(lv).(recursion_level)) s).

Definition reset_indices : M unit :=
  set_step_i 0 ;; set_keyword_i 0 ;; set_recipe_i 0.

Definition pop_level : M unit :=
  k <- level ;;
  match k with
  | 0 => ret tt
  | S k' => set_level k'
  end.

(** The test of a KEYWORD step. *)
Definition keyword_matches (word keyword : string) : bool :=
  let len := strlen keyword in
  is_zero (strncmp word keyword len) && (len =? strlen word).

(** The test of the earlier revision (XMK.C): the prefix alone. *)
Definition keyword_matches_XMK_C (word keyword : string) : bool :=
  is_zero (strncmp word keyword (strlen keyword)).

(** What follows a matched keyword or a consumed symbol. *)
Definition advance (rcp : list recipe) : M parse_state :=
  i <- get_step_i ;;
  next_step <- load rcp i ;;
  match next_step with
  | END => reset_indices ;; pop_level ;; ret SEARCHING
  | _ => ret CHECKING
  end.

(** [check_rule (rule, word, state, newline_detected)]: the returned
    flag and the new [*state].  [fuel] bounds the retries with the next
    recipe. *)
Fixpoint check_rule_rec (fuel : nat) (r : rule) (word : string)
         (state : parse_state) (newline_detected : bool)
  : M (bool * parse_state) :=
  match fuel with
  | 0 => out_of_fuel
  | S fuel' =>
    let rl := syntax_rules r in
    ri <- get_recipe_i ;;
    rcp <- load0 rl.(recipe_list) ri ;;
    let failed := reset_indices ;; ret (false, SEARCHING) in
    match rcp with
    | None => failed
    | Some rcp =>
      si <- get_step_i ;;
      step <- load rcp si ;;
      match step with
      | KEYWORD =>
          ki <- get_keyword_i ;;
          keyword <- load0 rl.(keywords) ki ;;
          match keyword with
          | None => failed
          | Some keyword =>
              if keyword_matches word keyword then
                set_step_i (S si) ;;
                set_keyword_i (S ki) ;;
                st <- advance rcp ;;
                ret (true, st)
              else if (strlen word =? 1) && is_prefix "}" word then
                pop_level ;; failed
              else
                set_recipe_i (S ri) ;;
                check_rule_rec fuel' r word state newline_detected
          end
      | NESTED_RULE =>
          k <- level ;;
          (if k <? MAX_RECURSION then set_level (S k) else ret tt) ;;
          scope r word state ;;
          ret (true, SEARCHING)
      | SYMBOL =>
          add_symbol r word ;;
          set_step_i (S si) ;;
          st <- advance rcp ;;
          ret (true, st)
      | LIST =>
          '(handled, st) <- handle_list r word state newline_detected ;;
          if handled then ret (true, st) else failed
      | END =>
          reset_indices ;; pop_level ;; ret (true, SEARCHING)
      end
    end
  end.

Definition check_rule (r : rule) (word : string) (state : parse_state)
           (newline_detected : bool) : M (bool * parse_state) :=
  check_rule_rec (2 + length (syntax_rules r).(recipe_list)) r word state
                 newline_detected.

(** The [foreach] of the SEARCHING case: the first rule that claims the
    word, and the state it leaves. *)
Fixpoint search (rules : list rule) (word : string) (state : parse_state)
         (newline_detected : bool) : M (option rule * parse_state) :=
  match rules with
  | [] => ret (None, state)
  | r :: rest =>
      '(claimed, state) <- check_rule r word state newline_detected ;;
      if claimed then ret (Some r, state)
      else search rest word state newline_detected
  end.

(** The locals of [check_syntax]. *)
Record cursor : Type := mkCursor {
  from : nat;
  state : parse_state;
  rule_checking : option rule      (* [None]: not assigned yet *)
}.

(** One iteration of the loop of [check_syntax]: [None] when [get_word]
    returns NULL and the loop ends. *)
Definition check_syntax_step (fuel : nat) (c : cursor) : M (option cursor) :=
  '(word, from, newline_detected) <- get_word fuel c.(from) ;;
  match word with
  | None => ret None
  | Some word =>
      match c.(state) with
      | SEARCHING =>
          '(claimed, st) <- search rule_order word c.(state) newline_detected ;;
          ret (Some (mkCursor from st
                       (match claimed with
                        | Some r => Some r
                        | None => c.(rule_checking)
                        end)))
      | CHECKING =>
          match c.(rule_checking) with
          | Some r =>
              '(_, st) <- check_rule r word c.(state) newline_detected ;;
              ret (Some (mkCursor from st c.(rule_checking)))
          | None => undefined Indeterminate
          end
      end
  end.

Fixpoint check_syntax_loop (fuel : nat) (c : cursor) : M Z :=
  match fuel with
  | 0 => out_of_fuel
  | S fuel' =>
      next <- check_syntax_step fuel c ;;
      match next with
      | None => ret 0%Z
      | Some c' => check_syntax_loop fuel' c'
      end
  end.

Definition check_syntax (fuel : nat) : M Z :=
  check_syntax_loop fuel (mkCursor 0 SEARCHING None).

(** ** The resolver and the executor *)

Definition file_exists (file : string) : M bool :=
  s <- get ;;
  match s.(sys).(files) file with
  | Some _ => ret true
  | None => ret false
  end.

(** [build (command)]: the host runs the command; its exit status. *)
Definition build (command : string) : M Z :=
  emit (Spawn command) ;;
  s <- get ;;
  let '(exit_code, files') := s.(sys).(shell) command s.(sys).(files) in
  modify (set_sys (mkHost s.(sys).(platform) files' s.(sys).(shell))) ;;
  ret exit_code.

(** [update_needed (target, dep)]: the comparison of write times under
    WIN32, the stub under POSIX. *)
Definition update_needed (target dep : string) : M bool :=
  s <- get ;;
  match s.(sys).(platform) with
  | POSIX => ret true
  | WIN32 =>
      match (s.(stores) TARGET).(list_size) with
      | None => ret true
      | Some tsz =>
          load tsz 0 ;;
          match s.(sys).(files) target, s.(sys).(files) dep with
          | Some target_file, Some dep_file =>
              match target_file.(write_time) with
              | Some target_time =>
                  match dep_file.(write_time) with
                  | Some dep_time => ret (Z.gtb dep_time target_time)
                  | None => ret true
                  end
              | None => ret true
              end
          | _, _ => ret true
          end
      end
  end.

Definition command_cell (target_idx i : nat) : M (list (ptr string) * ptr string) :=
  s <- get ;;
  l <- some_or_null (s.(stores) CREATED_USING).(list_) ;;
  p <- load l target_idx ;;
  entries <- deref p ;;
  command <- load entries i ;;
  ret (entries, command).

(** The loop that logs the commands of a target: the strings are only
    read when the log line is printed. *)
Fixpoint log_commands (target_idx i k : nat) : M unit :=
  match k with
  | 0 => ret tt
  | S k' =>
      '(_, command) <- command_cell target_idx i ;;
      v <- verbose ;;
      (if v then
         match command with
         | Null => ret tt
         | _ => deref command ;; ret tt
         end ;;
         emit (Logv "ex_build_target" "Command %zu=%s(%p)")
       else ret tt) ;;
      log_commands target_idx (S i) k'
  end.

(** The loop that runs the commands of a target, freeing each command
    after its run. *)
Fixpoint run_commands (target_idx i k : nat) : M unit :=
  match k with
  | 0 => ret tt
  | S k' =>
      '(entries, command) <- command_cell target_idx i ;;
      match command with
      | Null => FATAL_ERROR "ex_build_target" "Command %d for target %d is empty"
      | _ =>
          c <- deref command ;;
          s <- get ;;
          (if s.(config).(quiet) then ret tt
           else emit (Stdout (c ++ CRLF))) ;;
          exit_code <- build c ;;
          s <- get ;;
          l <- some_or_null (s.(stores) CREATED_USING).(list_) ;;
          entries' <- store entries i Dangling ;;
          l' <- store l target_idx (Ptr entries') ;;
          modify (set_store CREATED_USING
                    (mkStore (Some l') (s.(stores) CREATED_USING).(list_size))) ;;
          if is_zero exit_code then run_commands target_idx (S i) k'
          else FATAL_ERROR "ex_build_target" "Error [%d]"
      end
  end.

Section Executor.

(** [execute_commands] as called on a dependency: the name and
    [parent_update_pending], [None] for a NULL pointer, otherwise the
    flag it points to; the result carries the flag back. *)
Variable execute : string -> option bool -> M (Z * option bool).

Fixpoint resolve_dependencies (build_target : string)
         (target_idx dep k : nat) (update_pending : bool) : M bool :=
  match k with
  | 0 => ret update_pending
  | S k' =>
      s <- get ;;
      l <- some_or_null (s.(stores) DEPENDS_ON).(list_) ;;
      p <- load l target_idx ;;
      deps <- deref p ;;
      dependency <- load deps dep ;;
      LOGV "ex_build_target" "Checking dependency %zu/%zu %s" ;;
      match dependency with
      | Null => resolve_dependencies build_target target_idx (S dep) k'
                                     update_pending
      | _ =>
          d <- deref dependency ;;
          '(_, flag) <- execute d (Some update_pending) ;;
          let update_pending :=
            match flag with Some b => b | None => update_pending end in
          needed <- update_needed build_target d ;;
          let update_pending :=
            if negb needed then update_pending
            else if negb update_pending then true
            else update_pending in
          resolve_dependencies build_target target_idx (S dep) k'
                               update_pending
      end
  end.

Definition ex_build_target_with (build_target : string) (target_idx : nat)
           (parent_update_pending : option bool) : M (Z * option bool) :=
  s <- get ;;
  update_pending <-
    match (s.(stores) CREATED_USING).(list_size) with
    | Some csz =>
        c <- load csz target_idx ;;
        n_commands <- defined c ;;
        LOGV "ex_build_target" "%zu commands have been defined for target %s" ;;
        log_commands target_idx 0 n_commands ;;
        exists_ <- file_exists build_target ;;
        let update_pending := negb exists_ in
        match (s.(stores) DEPENDS_ON).(list_),
              (s.(stores) DEPENDS_ON).(list_size) with
        | Some _, Some dsz =>
            c <- load dsz target_idx ;;
            target_deps <- defined c ;;
            LOGV "ex_build_target" "Target %s has %zu dependencies" ;;
            (if (target_deps =? 0) && (n_commands =? 0)
             then FATAL_ERROR "ex_build_target"
                    "No build steps or dependencies have been indicated for target %s"
             else ret tt) ;;
            resolve_dependencies build_target target_idx 0 target_deps
                                 update_pending
        | _, _ => ret update_pending
        end
    | None => ret false
    end ;;
  let parent_update_pending :=
    match parent_update_pending with
    | Some _ => Some update_pending
    | None => None
    end in
  (if update_pending then
     s <- get ;;
     csz <- some_or_null (s.(stores) CREATED_USING).(list_size) ;;
     c <- load csz target_idx ;;
     target_commands <- defined c ;;
     LOGV "ex_build_target" "Target %s must be built" ;;
     run_commands target_idx 0 target_commands ;;
     exists_ <- file_exists build_target ;;
     if exists_ then ret tt
     else FATAL_ERROR "ex_build_target"
            "Commands executed for generating %s were successful, but file has not been generated"
   else LOGV "ex_build_target" "Target %s is up to date") ;;
  ret (1%Z, parent_update_pending).

End Executor.

(** [fuel] bounds the depth of the recursion through the dependencies. *)
Fixpoint execute_commands (fuel : nat) (target : string)
         (parent_update_pending : option bool) : M (Z * option bool) :=
  match fuel with
  | 0 => out_of_fuel
  | S fuel' =>
      found <- target_exists (Some target) ;;
      match found with
      | Some i =>
          ex_build_target_with (execute_commands fuel') target i
                               parent_update_pending
      | None =>
          exists_ <- file_exists target ;;
          if exists_ then cleanup ;; ret (0%Z, parent_update_pending)
          else FATAL_ERROR "execute_commands"
                           "Target %s could not be found on target list"
      end
  end.

Definition ex_build_target (fuel : nat) : string -> nat -> option bool -> M (Z * option bool) :=
  ex_build_target_with (execute_commands fuel).

(** ** The driver *)

Definition parse_file (fuel : nat) : M Z :=
  result_ <- check_syntax fuel ;;
  p <- preprocess_only ;;
  if p then
    s <- get ;;
    buffer <- some_or_null s.(file_buffer) ;;
    emit (Stdout (cstr buffer)) ;;
    ret 0%Z
  else
    modify (set_buffer None) ;;
    p <- preprocess_only ;;
    if negb p && is_zero result_ then
      s <- get ;;
      match s.(build_target) with
      | Some target =>
          '(code, _) <- execute_commands fuel target None ;;
          ret code
      | None => FATAL_ERROR "parse_file" "No build target has not been defined"
      end
    else ret 1%Z.

Definition DEFAULT_FILE_NAME : string := "default.xmk".

Definition exec (fuel : nat) : M Z :=
  s <- get ;;
  let path := match s.(config).(path) with
              | Some p => p
              | None => DEFAULT_FILE_NAME
              end in
  match s.(sys).(files) path with
  | Some f =>
      modify (set_buffer (Some f.(contents))) ;;
      LOGV "exec" "File %s was opened successfully" ;;
      modify (set_line 1) ;;
      parse_file fuel
  | None => FATAL_ERROR "exec" "Input file %s could not be opened"
  end.

Definition with_config (f : config_t -> config_t) : M unit :=
  modify (fun s => set_config (f s.(config)) s).

Definition set_preprocess : M unit :=
  with_config (fun c => mkConfig c.(path) true c.(verbose_flag)
                                 c.(extra_verbose_flag) c.(quiet)).
Definition set_input (input : string) : M unit :=
  with_config (fun c => mkConfig (Some input) c.(preprocess) c.(verbose_flag)
                                 c.(extra_verbose_flag) c.(quiet)).
Definition set_verbose : M unit :=
  with_config (fun c => mkConfig c.(path) c.(preprocess) true
                                 c.(extra_verbose_flag) c.(quiet)).
Definition set_extra_verbose : M unit :=
  with_config (fun c => mkConfig c.(path) c.(preprocess) true true c.(quiet)).
Definition set_quiet : M unit :=
  with_config (fun c => mkConfig c.(path) c.(preprocess) c.(verbose_flag)
                                 c.(extra_verbose_flag) true).

Definition APP_NAME : string := "xmk".
Definition AUTHOR : string := "Xavier Del Campo Romero".
Definition EOL : string := String LF EmptyString.

(** The [arg] and [description] of the entries of [supported_args], in
    the order of the table. *)
Definition descriptions : list (string * string) :=
  [ ("--help", "Shows this message");
    ("-E", "Only preprocessed output");
    ("-v", "Verbose output. Ignores quiet mode");
    ("-vv", "Extra verbose output. Ignores quiet mode");
    ("-f", "[" ++ DEFAULT_FILE_NAME ++ "]. Sets input xmk file.");
    ("-q", "Quiet mode. Commands are not printed into stdout") ].

Fixpoint print_arguments (l : list (string * string)) : M unit :=
  match l with
  | [] => ret tt
  | (a, d) :: rest =>
      emit (Stdout (a ++ String TAB d ++ EOL)) ;;
      print_arguments rest
  end.

(** [help]; the date and the time of compilation stay the [%s] of the
    last line. *)
Definition help : M unit :=
  emit (Stdout (APP_NAME ++ ", an automated build tool." ++ EOL ++ EOL)) ;;
  emit (Stdout ("Usage:" ++ EOL)) ;;
  emit (Stdout (APP_NAME ++ " [OPTIONS]" ++ EOL)) ;;
  print_arguments descriptions ;;
  emit (Stdout ("Written by " ++ AUTHOR ++ ", build date: %s %s" ++ EOL)) ;;
  fun s => Exit 0%Z s.

Inductive arg_callback : Type :=
| no_param (f : M unit)
| param_str (f : string -> M unit).

(** An entry of [supported_args]; [additional_param] is set exactly on
    the entries whose callback takes a string, and no entry is
    [needed], so the final check of [parse_arguments] raises nothing. *)
Record supported_arg : Type := mkArg {
  callback : arg_callback;
  arg : string;
  description : string
}.

Definition supported_args : list supported_arg :=
  map (fun '(cb, (a, d)) => mkArg cb a d)
      (combine [ no_param help;
                 no_param set_preprocess;
                 no_param set_verbose;
                 no_param set_extra_verbose;
                 param_str set_input;
                 no_param set_quiet ]
               descriptions).

Inductive arg_state : Type := GET_ARG | GET_PARAM.

(** The [foreach] of the GET_ARG case. *)
Fixpoint match_argument (sups : list supported_arg) (arg_str : string)
         (st : arg_state) (str_callback : option (string -> M unit))
  : M (arg_state * option (string -> M unit)) :=
  match sups with
  | [] => ret (st, str_callback)
  | sup :: rest =>
      let sarg := sup.(arg) in
      if is_zero (strncmp arg_str sarg (strlen sarg))
         && (strlen arg_str =? strlen sarg)
      then match sup.(callback) with
           | param_str f => match_argument rest arg_str GET_PARAM (Some f)
           | no_param f => f ;; ret (st, str_callback)
           end
      else match_argument rest arg_str st str_callback
  end.

(** [parse_arguments] over [argc[1]], [argc[2]], ... *)
Fixpoint parse_arguments_from (args : list string) (st : arg_state)
         (str_callback : option (string -> M unit)) : M Z :=
  match args with
  | [] => ret 0%Z
  | arg_str :: rest =>
      match st with
      | GET_ARG =>
          '(st, cb) <- match_argument supported_args arg_str st str_callback ;;
          parse_arguments_from rest st cb
      | GET_PARAM =>
          match str_callback with
          | Some f => f arg_str
          | None => ret tt
          end ;;
          parse_arguments_from rest GET_ARG str_callback
      end
  end.

Definition parse_arguments (args : list string) : M Z :=
  parse_arguments_from args GET_ARG None.

Definition main (fuel : nat) (args : list string) : M Z :=
  r <- parse_arguments args ;;
  if is_zero r then exec fuel else ret 1%Z.

(** A run of the program on a host, from the zero-initialised globals. *)
Definition run (fuel : nat) (args : list string) (h : host) : result Z :=
  main fuel args (initial (mkConfig None false false false false) h).

(** The exit code of the process and its final state, when the run ends
    by returning from [main] or by [exit]. *)
Definition exit_code (r : result Z) : option Z :=
  match r with
  | Ret code _ => Some code
  | Exit code _ => Some code
  | _ => None
  end.

Definition final (r : result Z) : option xmk :=
  match r with
  | Ret _ s => Some s
  | Exit _ s => Some s
  | Undefined _ s => Some s
  | OutOfFuel => None
  end.

Definition spawned (t : list event) : list string :=
  flat_map (fun e => match e with Spawn c => [c] | _ => [] end) t.

Definition printed (t : list event) : list string :=
  flat_map (fun e => match e with Stdout c => [c] | _ => [] end) t.

(** The first [k] iterations of the loop of [check_syntax]: the cursor
    before iteration [k + 1], or [None] when the loop has ended. *)
Fixpoint steps (fuel k : nat) (c : cursor) : M (option cursor) :=
  match k with
  | 0 => ret (Some c)
  | S k' =>
      next <- check_syntax_step fuel c ;;
      match next with
      | None => ret None
      | Some c' => steps fuel k' c'
      end
  end.

(** The state in which [check_syntax] starts on a source text. *)
Definition loaded (c : config_t) (h : host) (source : string) : xmk :=
  set_line 1 (set_buffer (Some source) (initial c h)).

(** ** Sizes of the three tables *)

(** The number of targets, [*syntax_rules[TARGET].list_size]. *)
Definition target_count (s : xmk) : nat :=
  match (s.(stores) TARGET).(list_size) with
  | Some (Some k :: _) => k
  | _ => 0
  end.

(** The number of entries a per-target table has room for. *)
Definition table_length (r : rule) (s : xmk) : nat :=
  match (s.(stores) r).(list_) with
  | Some l => length l
  | None => 0
  end.

Unset Implicit Arguments.

(** * Vocabulary of the statements *)

Definition lvl (s : xmk) : nat := s.(lv).(recursion_level).

Definition zero_cell (a : cells) (i : nat) : cells :=
  match set_cell a i 0 with
  | Some a' => a'
  | None => a
  end.

(** The state after the three counters of the current level are reset. *)
Definition reset_state (s : xmk) : xmk :=
  set_lv (mkLevels (zero_cell s.(lv).(step_i) (lvl s))
                   (zero_cell s.(lv).(keyword_i) (lvl s))
                   (zero_cell s.(lv).(recipe_i) (lvl s))
                   (lvl s)) s.

(** The state after one nesting level is left. *)
Definition pop_state (s : xmk) : xmk :=
  set_lv (mkLevels s.(lv).(step_i) s.(lv).(keyword_i) s.(lv).(recipe_i)
                   (Nat.pred (lvl s))) s.

Definition with_recipe_i (v : nat) (s : xmk) : xmk :=
  set_lv (mkLevels s.(lv).(step_i) s.(lv).(keyword_i)
                   (match set_cell s.(lv).(recipe_i) (lvl s) v with
                    | Some a => a
                    | None => s.(lv).(recipe_i)
                    end)
                   (lvl s)) s.

(** From recipe [ri] on, every recipe of [r] has a KEYWORD at step [si]. *)
Definition later_keyword (r : rule) (ri si : nat) : Prop :=
  forall ri' rcp, ri <= ri' ->
    nth_error (syntax_rules r).(recipe_list) ri' = Some rcp ->
    nth_error rcp si = Some KEYWORD.

Definition closing (word : string) : bool :=
  (strlen word =? 1) && is_prefix "}" word.

(** The state a rule leaves when its KEYWORD step rejects [word]. *)
Definition rejected (word : string) (s : xmk) : xmk :=
  if closing word then reset_state (pop_state s) else reset_state s.

(** The counters of the current level are all 0: the engine is at the
    first step of every rule. *)
Definition fresh (s : xmk) : Prop :=
  cell s.(lv).(recipe_i) (lvl s) = Some 0 /\
  cell s.(lv).(step_i) (lvl s) = Some 0 /\
  cell s.(lv).(keyword_i) (lvl s) = Some 0.

(** The keyword a rule expects at its first step. *)
Definition first_keywords : list string :=
  flat_map (fun r => firstn 1 (syntax_rules r).(keywords)) rule_order.

(** A byte that can stand anywhere in an unquoted word. *)
Definition plain (c : ascii) : bool :=
  negb (is_blank c) && negb (Ascii.eqb c NUL) && negb (Ascii.eqb c "#")
  && negb (Ascii.eqb c QUOTE).

Fixpoint all_plain (w : string) : bool :=
  match w with
  | EmptyString => true
  | String c r => plain c && all_plain r
  end.

Fixpoint replicate (k : nat) (c : ascii) : string :=
  match k with
  | 0 => EmptyString
  | S k' => String c (replicate k' c)
  end.

Definition first_byte (text : string) : ascii :=
  match text with
  | EmptyString => NUL
  | String c _ => c
  end.

(** The state in which a fatal error leaves the process. *)
Definition failed_with (func fmt : string) (s : xmk) : xmk :=
  set_trace (s.(trace) ++ [Error func fmt]) s.

Fixpoint all_digits (ds : string) : bool :=
  match ds with
  | EmptyString => true
  | String d r => is_digit d && all_digits r
  end.

(** A build file whose target has the dependencies [a] and [b], and
    whose commands name [$(dep[1])] and [$(dep[7])]. *)
Definition two_dependencies : string :=
  "build out" ++ String LF
  ("target out {" ++ String LF
  (" depends on {" ++ String LF
  ("  a" ++ String LF
  ("  b" ++ String LF
  (" }" ++ String LF
  (" created using {" ++ String LF
  ("  cat $(dep[1])" ++ String LF
  ("  cat $(dep[7])" ++ String LF
  (" }" ++ String LF
  ("}" ++ String LF
  EmptyString)))))))))).

Definition no_files : filesystem := fun _ => None.

Definition idle_host (p : os) : host := mkHost p no_files (fun _ f => (0%Z, f)).

Definition default_config : config_t := mkConfig None false false false false.

(** The state after [k] words of a source text, when the parser gets
    that far. *)
Definition after_words (k : nat) (source : string) : option xmk :=
  match steps 50 k (mkCursor 0 SEARCHING None)
              (loaded default_config (idle_host POSIX) source) with
  | Ret _ s => Some s
  | _ => None
  end.

Definition add_file (name : string) (f : file) (fs : filesystem) : filesystem :=
  fun x => if String.eqb x name then Some f else fs x.

(** A file of no interest but its write time. *)
Definition written (t : Z) : file := mkFile EmptyString (Some t).

(** A shell that knows the listed commands: each succeeds and writes
    its output file at time 100; any other command fails. *)
Definition making (outputs : list (string * string)) (command : string)
           (fs : filesystem) : Z * filesystem :=
  match find (fun p => String.eqb (fst p) command) outputs with
  | Some (_, out) => (0%Z, add_file out (written 100) fs)
  | None => (1%Z, fs)
  end.

(** The first scenario of the specification: [out] is made from [in]. *)
Definition minimal_build : string :=
  "build out" ++ String LF
  ("target out { depends on { in } created using { cp in out } }" ++ String LF
   EmptyString).

(** Its files when both exist and [out] is the newer one. *)
Definition up_to_date : filesystem :=
  add_file "default.xmk" (mkFile minimal_build (Some 0%Z))
    (add_file "in" (written 1) (add_file "out" (written 2) no_files)).

Definition cp_host (p : os) (fs : filesystem) : host :=
  mkHost p fs (making [("cp in out", "out")]).

(** The files of the first scenario before the build: [in] exists,
    [out] does not. *)
Definition before_build : filesystem :=
  add_file "default.xmk" (mkFile minimal_build (Some 0%Z))
    (add_file "in" (written 1) no_files).

Definition is_file (name : string) (s : xmk) : bool :=
  match s.(sys).(files) name with
  | Some _ => true
  | None => false
  end.

(** A build file in which the targets [x] and [y] both depend on the
    target [lib]. *)
Definition diamond : string :=
  "build app" ++ String LF
  ("target app {" ++ String LF
  (" depends on {" ++ String LF
  ("  x" ++ String LF
  ("  y" ++ String LF
  (" }" ++ String LF
  (" created using { link app }" ++ String LF
  ("}" ++ String LF
  ("target x { depends on { lib } created using { make x } }" ++ String LF
  ("target y { depends on { lib } created using { make y } }" ++ String LF
  ("target lib { depends on { lib.c } created using { make lib } }" ++ String LF
  EmptyString)))))))))).

Definition diamond_shell : string -> filesystem -> Z * filesystem :=
  making [("link app", "app"); ("make x", "x"); ("make y", "y");
          ("make lib", "lib")].

(** Only the sources exist. *)
Definition diamond_sources : filesystem :=
  add_file "default.xmk" (mkFile diamond (Some 0%Z))
    (add_file "lib.c" (written 5) no_files).

(** Everything exists, [lib] being older than [lib.c]. *)
Definition diamond_stale : filesystem :=
  add_file "app" (written 1)
    (add_file "x" (written 1)
       (add_file "y" (written 1)
          (add_file "lib" (written 1) diamond_sources))).

(** [m] keeps [P], or else [Q]: started in a state of which [P] holds,
    [m] returns in a state of which [P] holds, and leaves a state of
    which [Q] holds when it ends the process instead. *)
Definition keeps {A} (P Q : xmk -> Prop) (m : M A) : Prop :=
  forall s, P s ->
    match m s with
    | Ret _ s' => P s'
    | Exit _ s' | Undefined _ s' => Q s'
    | OutOfFuel => True
    end.

Definition is_spawn (e : event) : bool :=
  match e with
  | Spawn _ => true
  | _ => false
  end.

(** The parts of the state on which parsing has no effect once a source
    buffer is loaded: the options, the host and the commands spawned so
    far; the buffer stays allocated. *)
Definition untouched (s0 s : xmk) : Prop :=
  s.(config) = s0.(config) /\ s.(sys) = s0.(sys) /\
  spawned s.(trace) = spawned s0.(trace) /\ s.(file_buffer) <> None.

(** The fourth scenario of the specification. *)
Definition define_expansion : string :=
  "define CC as cc" ++ String LF
  ("define FLAGS as -O2" ++ String LF
  ("build foo" ++ String LF
  ("target foo { depends on { foo.c } created using { $CC $FLAGS -o $(target) $(dep[0]) } }"
   ++ String LF EmptyString))).

Definition define_expansion_expanded : string :=
  "define CC as cc" ++ String LF
  ("define FLAGS as -O2" ++ String LF
  ("build foo" ++ String LF
  ("target foo { depends on { foo.c } created using { cc -O2 -o $(target) $(dep[0]) } }"
   ++ String LF EmptyString))).

(** The state in which a fatal error, or undefined behaviour, or the
    return from [main] leaves the process; [None] when the fuel of the
    model ran out first. *)
Definition last_state {A} (r : result A) : option xmk :=
  match r with
  | Ret _ s | Exit _ s | Undefined _ s => Some s
  | OutOfFuel => None
  end.

(** The count in the first cell of a [list_size] array. *)
Definition first_count (sz : list (option nat)) : nat :=
  match sz with
  | Some k :: _ => k
  | _ => 0
  end.

(** The tables of dependencies and of commands are level: both are
    unallocated, or both have room for the same number of targets, their
    [list_size] arrays too, and that number is not above the number of
    targets. *)
Definition shape (st : rule_store) : option nat * option nat :=
  (option_map (@length _) st.(list_), option_map (@length _) st.(list_size)).

Definition level_tables (s : xmk) : Prop :=
  (shape (s.(stores) DEPENDS_ON) = (None, None) /\
   shape (s.(stores) CREATED_USING) = (None, None)) \/
  (exists k, shape (s.(stores) DEPENDS_ON) = (Some k, Some k) /\
             shape (s.(stores) CREATED_USING) = (Some k, Some k) /\
             1 <= k <= target_count s).

(** A state that differs from [s0] in its trace at most. *)
Definition same_but_trace (s0 s : xmk) : Prop := exists t, s = set_trace t s0.

(** Two targets, one after the other. *)
Definition two_targets : string :=
  "target a { }" ++ String LF ("target b { }" ++ String LF EmptyString).

(** [m] never runs out of fuel. *)
Definition total {A} (m : M A) : Prop := forall s, m s <> OutOfFuel.

(** * Properties *)

Lemma rule_eqb_eq (a b : rule) : rule_eqb a b = true <-> a = b.
Proof. destruct a, b; simpl; split; congruence. Qed.

Lemma rule_eqb_refl (a : rule) : rule_eqb a a = true.
Proof. destruct a; reflexivity. Qed.

(** ** C strings *)

Lemma nat_of_ascii_inj (c d : ascii) : nat_of_ascii c = nat_of_ascii d -> c = d.
Proof.
  intros H. rewrite <- (ascii_nat_embedding c), <- (ascii_nat_embedding d).
  now rewrite H.
Qed.

Lemma strncmp_refl (a : string) (k : nat) : strncmp a a k = 0%Z.
Proof.
  revert k. induction a as [|c a IH]; intros [|k]; simpl; auto.
  now rewrite Ascii.eqb_refl.
Qed.

Lemma strncmp_length_eq (k w : string) :
  strncmp w k (strlen k) = 0%Z -> strlen k = strlen w -> w = k.
Proof.
  revert w. induction k as [|d k IH]; intros [|c w]; simpl; try discriminate; auto.
  destruct (Ascii.eqb_spec c d) as [->|Hcd].
  - intros H1 H2. f_equal. apply IH; auto.
  - intros H _. exfalso. apply Hcd, nat_of_ascii_inj. lia.
Qed.

Lemma keyword_matches_iff (word keyword : string) :
  keyword_matches word keyword = true <-> word = keyword.
Proof.
  unfold keyword_matches, is_zero. split.
  - intros H. apply andb_true_iff in H as [H1 H2].
    apply Z.eqb_eq in H1. apply Nat.eqb_eq in H2.
    now apply strncmp_length_eq.
  - intros ->. rewrite strncmp_refl, Nat.eqb_refl. reflexivity.
Qed.

(** ** Running the monad *)

Lemma bind_Ret {A B} (m : M A) (f : A -> M B) (s s' : xmk) (a : A) :
  m s = Ret a s' -> bind m f s = f a s'.
Proof. unfold bind. now intros ->. Qed.

Lemma bind_inv {A B} (m : M A) (f : A -> M B) (s s' : xmk) (b : B) :
  bind m f s = Ret b s' -> exists a s1, m s = Ret a s1 /\ f a s1 = Ret b s'.
Proof.
  unfold bind. destruct (m s) as [a s1| | |]; try discriminate.
  intros H. now exists a, s1.
Qed.

(** ** The counters of [check_rule] *)

Ltac break_state s :=
  let l := fresh "l" in
  destruct s as [? ? ? ? ? ? ? ? l ? ?];
  destruct l as [[? ?] [? ?] [? ?] [|[|?]]].

Lemma cell_lt (a : cells) (i v : nat) : cell a i = Some v -> i < 2.
Proof. destruct i as [|[|i]]; simpl; try discriminate; lia. Qed.

Lemma get_step_i_run (s : xmk) (v : nat) :
  cell s.(lv).(step_i) (lvl s) = Some v -> get_step_i s = Ret v s.
Proof. unfold get_step_i, bind, get, lvl. now intros ->. Qed.

Lemma get_keyword_i_run (s : xmk) (v : nat) :
  cell s.(lv).(keyword_i) (lvl s) = Some v -> get_keyword_i s = Ret v s.
Proof. unfold get_keyword_i, bind, get, lvl. now intros ->. Qed.

Lemma get_recipe_i_run (s : xmk) (v : nat) :
  cell s.(lv).(recipe_i) (lvl s) = Some v -> get_recipe_i s = Ret v s.
Proof. unfold get_recipe_i, bind, get, lvl. now intros ->. Qed.

Lemma reset_indices_run (s : xmk) :
  lvl s < 2 -> reset_indices s = Ret tt (reset_state s).
Proof.
  intros H. break_state s; unfold lvl in H; simpl in H; try lia; reflexivity.
Qed.

Lemma pop_level_run (s : xmk) : pop_level s = Ret tt (pop_state s).
Proof. break_state s; reflexivity. Qed.

Lemma set_recipe_i_run (s : xmk) (v : nat) :
  lvl s < 2 -> set_recipe_i v s = Ret tt (with_recipe_i v s).
Proof.
  intros H. break_state s; unfold lvl in H; simpl in H; try lia; reflexivity.
Qed.

Lemma reset_with_recipe_i (s : xmk) (v : nat) :
  reset_state (with_recipe_i v s) = reset_state s.
Proof. break_state s; reflexivity. Qed.

Lemma reset_state_fresh (s : xmk) :
  cell s.(lv).(step_i) (lvl s) = Some 0 ->
  cell s.(lv).(keyword_i) (lvl s) = Some 0 ->
  cell s.(lv).(recipe_i) (lvl s) = Some 0 ->
  reset_state s = s.
Proof.
  break_state s; unfold lvl; simpl; try discriminate;
    intros; repeat match goal with H : Some _ = Some _ |- _ => injection H as -> end;
    reflexivity.
Qed.

(** ** The rule table *)

Lemma table_later_keyword (r : rule) (ri si : nat) (rcp : list recipe) :
  nth_error (syntax_rules r).(recipe_list) ri = Some rcp ->
  nth_error rcp si = Some KEYWORD ->
  later_keyword r ri si.
Proof.
  intros Hr Hs ri' rcp' Hle Hr'.
  destruct r; simpl in *;
    destruct ri as [|[|[|ri]]]; simpl in Hr; try discriminate;
    injection Hr as <-;
    destruct si as [|[|[|[|[|[|si]]]]]]; simpl in Hs; try discriminate;
    destruct ri' as [|[|[|ri']]]; simpl in Hr'; try discriminate; try lia;
    injection Hr' as <-; reflexivity.
Qed.

Lemma table_next_step (r : rule) (ri si : nat) (rcp : list recipe) (step : recipe) :
  nth_error (syntax_rules r).(recipe_list) ri = Some rcp ->
  nth_error rcp si = Some step -> step <> END ->
  exists next, nth_error rcp (S si) = Some next.
Proof.
  intros Hr Hs Hne.
  destruct r; simpl in *;
    destruct ri as [|[|[|ri]]]; simpl in Hr; try discriminate;
    injection Hr as <-;
    destruct si as [|[|[|[|[|[|si]]]]]]; simpl in Hs; try discriminate;
    try (injection Hs as <-; congruence);
    simpl; eauto.
Qed.

Lemma closing_iff (word : string) : closing word = true <-> word = "}".
Proof.
  unfold closing. split.
  - intros H. apply andb_true_iff in H as [H1 H2].
    apply Nat.eqb_eq in H1.
    destruct word as [|c [|d w]]; try discriminate H1.
    cbn [is_prefix] in H2. apply andb_true_iff in H2 as [H2 _].
    apply Ascii.eqb_eq in H2. now subst.
  - now intros ->.
Qed.

Lemma lvl_with_recipe_i (s : xmk) (v : nat) : lvl (with_recipe_i v s) = lvl s.
Proof. reflexivity. Qed.

Lemma check_rule_rec_rejects (fuel : nat) :
  forall (r : rule) (word : string) (st : parse_state) (nl : bool) (s : xmk)
         (ri si ki : nat) (keyword : string),
    cell s.(lv).(recipe_i) (lvl s) = Some ri ->
    cell s.(lv).(step_i) (lvl s) = Some si ->
    cell s.(lv).(keyword_i) (lvl s) = Some ki ->
    nth_error (syntax_rules r).(keywords) ki = Some keyword ->
    later_keyword r ri si ->
    ri <= length (syntax_rules r).(recipe_list) ->
    ri < length (syntax_rules r).(recipe_list) \/ closing word = false ->
    length (syntax_rules r).(recipe_list) < fuel + ri ->
    word <> keyword ->
    check_rule_rec fuel r word st nl s = Ret (false, SEARCHING) (rejected word s).
Proof.
  induction fuel as [|fuel IH]; intros r word st nl s ri si ki keyword
    Hri Hsi Hki Hkw Hlater Hle Hcl Hfuel Hne.
  - simpl in Hfuel. lia.
  - assert (Hl : lvl s < 2) by (eapply cell_lt; eauto).
    cbn [check_rule_rec].
    rewrite (bind_Ret _ _ _ _ _ (get_recipe_i_run _ _ Hri)).
    unfold load0 at 1.
    destruct (nth_error (recipe_list (syntax_rules r)) ri) as [rcp|] eqn:Hrcp.
    + unfold ret at 1. unfold bind at 1.
      rewrite (bind_Ret _ _ _ _ _ (get_step_i_run _ _ Hsi)).
      assert (Hstep : nth_error rcp si = Some KEYWORD) by exact (Hlater ri rcp (le_n _) Hrcp).
      unfold load at 1. rewrite Hstep. unfold ret at 1, bind at 1.
      rewrite (bind_Ret _ _ _ _ _ (get_keyword_i_run _ _ Hki)).
      unfold load0 at 1. rewrite Hkw. unfold ret at 1, bind at 1.
      destruct (keyword_matches word keyword) eqn:Hm.
      { apply keyword_matches_iff in Hm. contradiction. }
      fold (closing word). unfold rejected.
      destruct (closing word) eqn:Hc.
      * rewrite (bind_Ret _ _ _ _ _ (pop_level_run s)).
        rewrite (bind_Ret _ _ _ _ _ (reset_indices_run (pop_state s) ltac:(unfold pop_state, lvl in *; simpl; lia))).
        reflexivity.
      * rewrite (bind_Ret _ _ _ _ _ (set_recipe_i_run _ (S ri) Hl)).
        assert (Hlt : ri < length (recipe_list (syntax_rules r))).
        { apply nth_error_Some. congruence. }
        assert (H1 : cell (recipe_i (lv (with_recipe_i (S ri) s)))
                          (lvl (with_recipe_i (S ri) s)) = Some (S ri)).
        { clear - Hri. break_state s; unfold lvl in *; simpl in *;
            try discriminate; reflexivity. }
        assert (H2 : cell (step_i (lv (with_recipe_i (S ri) s)))
                          (lvl (with_recipe_i (S ri) s)) = Some si).
        { clear - Hsi. break_state s; unfold lvl in *; simpl in *;
            try discriminate; assumption. }
        assert (H3 : cell (keyword_i (lv (with_recipe_i (S ri) s)))
                          (lvl (with_recipe_i (S ri) s)) = Some ki).
        { clear - Hki. break_state s; unfold lvl in *; simpl in *;
            try discriminate; assumption. }
        assert (H4 : later_keyword r (S ri) si).
        { intros ri' rcp' Hle' Hr'. eapply Hlater; [|eassumption]. lia. }
        rewrite (IH r word st nl (with_recipe_i (S ri) s) (S ri) si ki keyword
                    H1 H2 H3 Hkw H4 ltac:(lia) (or_intror Hc) ltac:(lia) Hne).
        unfold rejected. rewrite Hc. now rewrite reset_with_recipe_i.
    + assert (ri = length (recipe_list (syntax_rules r))).
      { apply nth_error_None in Hrcp. lia. }
      subst ri. rewrite Nat.eqb_refl. unfold ret at 1, bind at 1.
      rewrite (bind_Ret _ _ _ _ _ (reset_indices_run s Hl)).
      unfold rejected.
      destruct Hcl as [Hcl| ->]; [lia|reflexivity].
Qed.
(** What [advance] does when the step after the current one is [next]. *)
Definition advanced (next : recipe) (s : xmk) : parse_state * xmk :=
  match next with
  | END => (SEARCHING, pop_state (reset_state s))
  | _ => (CHECKING, s)
  end.

Lemma advance_run (rcp : list recipe) (s : xmk) (i : nat) (next : recipe) :
  cell s.(lv).(step_i) (lvl s) = Some i ->
  nth_error rcp i = Some next ->
  advance rcp s = Ret (fst (advanced next s)) (snd (advanced next s)).
Proof.
  intros Hi Hn. unfold advance.
  rewrite (bind_Ret _ _ _ _ _ (get_step_i_run _ _ Hi)).
  unfold load. rewrite Hn. unfold ret at 1, bind at 1.
  assert (Hl : lvl s < 2) by (eapply cell_lt; eauto).
  destruct next; try reflexivity.
  rewrite (bind_Ret _ _ _ _ _ (reset_indices_run s Hl)).
  rewrite (bind_Ret _ _ _ _ _ (pop_level_run _)). reflexivity.
Qed.

Lemma check_rule_rec_accepts (fuel : nat) (r : rule) (word : string)
      (st : parse_state) (nl : bool) (s : xmk) (ri si ki : nat) (rcp : list recipe) :
  cell s.(lv).(recipe_i) (lvl s) = Some ri ->
  cell s.(lv).(step_i) (lvl s) = Some si ->
  cell s.(lv).(keyword_i) (lvl s) = Some ki ->
  nth_error (syntax_rules r).(recipe_list) ri = Some rcp ->
  nth_error rcp si = Some KEYWORD ->
  nth_error (syntax_rules r).(keywords) ki = Some word ->
  exists st' s', check_rule_rec (S fuel) r word st nl s = Ret (true, st') s'.
Proof.
  intros Hri Hsi Hki Hrcp Hstep Hkw.
  destruct (table_next_step r ri si rcp KEYWORD Hrcp Hstep ltac:(discriminate))
    as [next Hnext].
  assert (Hm : keyword_matches word word = true) by now apply keyword_matches_iff.
  cbn [check_rule_rec].
  rewrite (bind_Ret _ _ _ _ _ (get_recipe_i_run _ _ Hri)).
  unfold load0 at 1. rewrite Hrcp. unfold ret at 1, bind at 1.
  rewrite (bind_Ret _ _ _ _ _ (get_step_i_run _ _ Hsi)).
  unfold load at 1. rewrite Hstep. unfold ret at 1, bind at 1.
  rewrite (bind_Ret _ _ _ _ _ (get_keyword_i_run _ _ Hki)).
  unfold load0 at 1. rewrite Hkw. unfold ret at 1, bind at 1.
  rewrite Hm.
  break_state s; unfold lvl in *; simpl in Hri, Hsi, Hki; try discriminate;
    injection Hri as ->; injection Hsi as ->; injection Hki as ->;
    cbn;
    match goal with
    | |- exists _ _, bind (advance _) _ ?S1 = _ =>
        rewrite (bind_Ret _ _ _ _ _ (advance_run rcp S1 (S si) next eq_refl Hnext))
    end;
    eexists; eexists; reflexivity.
Qed.

(** C6. At a KEYWORD step, a rule claims the word exactly when the word
    equals the rule's next keyword byte for byte; a word that extends
    the keyword is not claimed. *)
Theorem keyword_step_is_exact (r : rule) (word : string) (st : parse_state)
        (nl : bool) (s : xmk) (ri si ki : nat) (rcp : list recipe)
        (keyword : string) :
  cell s.(lv).(recipe_i) (lvl s) = Some ri ->
  nth_error (syntax_rules r).(recipe_list) ri = Some rcp ->
  cell s.(lv).(step_i) (lvl s) = Some si ->
  nth_error rcp si = Some KEYWORD ->
  cell s.(lv).(keyword_i) (lvl s) = Some ki ->
  nth_error (syntax_rules r).(keywords) ki = Some keyword ->
  (keyword_matches word keyword = true <-> word = keyword) /\
  ((exists st' s', check_rule r word st nl s = Ret (true, st') s')
   <-> word = keyword) /\
  (forall extra : string, extra <> EmptyString ->
     check_rule r (keyword ++ extra) st nl s
     = Ret (false, SEARCHING) (rejected (keyword ++ extra) s)).
Proof.
  intros Hri Hrcp Hsi Hstep Hki Hkw.
  assert (Hlater := table_later_keyword r ri si rcp Hrcp Hstep).
  assert (Hlt : ri < length (recipe_list (syntax_rules r))).
  { apply nth_error_Some. congruence. }
  assert (Hrej : forall w, w <> keyword ->
            check_rule r w st nl s = Ret (false, SEARCHING) (rejected w s)).
  { intros w Hw. unfold check_rule.
    apply (check_rule_rec_rejects _ r w st nl s ri si ki keyword); auto; lia. }
  split; [apply keyword_matches_iff|]. split; [split|].
  - intros (st' & s' & H).
    destruct (string_dec word keyword) as [E|E]; [exact E|].
    rewrite (Hrej word E) in H. discriminate.
  - intros ->. unfold check_rule.
    apply (check_rule_rec_accepts _ r keyword st nl s ri si ki rcp); auto.
  - intros extra Hextra. apply Hrej. intros E.
    apply Hextra. clear - E.
    induction keyword as [|c k IH]; simpl in E; [exact E|].
    injection E as E. auto.
Qed.

Lemma keyword_step_is_exact_witness :
  let s := initial (mkConfig None false false false false)
                   (mkHost POSIX (fun _ => None) (fun _ f => (0%Z, f))) in
  ((exists st' s', check_rule BUILD "build" SEARCHING false s = Ret (true, st') s')
   <-> "build" = "build") /\
  check_rule BUILD "building" SEARCHING false s
  = Ret (false, SEARCHING) (rejected "building" s).
Proof.
  intros s.
  destruct (keyword_step_is_exact BUILD "build" SEARCHING false s 0 0 0
              [KEYWORD; SYMBOL; END] "build"
              eq_refl eq_refl eq_refl eq_refl eq_refl eq_refl)
    as (_ & H2 & H3).
  split; [exact H2|].
  apply (H3 "ing"). discriminate.
Defined.

Lemma rejected_fresh (word : string) (s : xmk) :
  lvl s < 2 -> fresh (rejected word s).
Proof.
  intros H. unfold rejected, fresh.
  destruct (closing word); break_state s; unfold lvl in *; simpl in *;
    try lia; repeat split.
Qed.

Lemma rejected_idem (word : string) (s : xmk) :
  lvl s < 2 -> rejected word (rejected word s) = rejected word s.
Proof.
  intros H. unfold rejected.
  destruct (closing word); break_state s; unfold lvl in *; simpl in *;
    try lia; reflexivity.
Qed.

Lemma lvl_rejected (word : string) (s : xmk) :
  lvl s < 2 -> lvl (rejected word s) < 2.
Proof.
  intros H. unfold rejected.
  destruct (closing word); break_state s;
    unfold reset_state, pop_state, lvl in *; simpl in *; lia.
Qed.

Lemma rejected_frame (word : string) (s : xmk) :
  rejected word s = set_lv (rejected word s).(lv) s.
Proof.
  unfold rejected. destruct (closing word); destruct s; reflexivity.
Qed.

Lemma rejected_same (word : string) (s : xmk) :
  fresh s -> word <> "}" -> rejected word s = s.
Proof.
  intros (H1 & H2 & H3) Hw. unfold rejected.
  destruct (closing word) eqn:Hc.
  - apply closing_iff in Hc. contradiction.
  - now apply reset_state_fresh.
Qed.

Lemma check_rule_fresh_rejects (r : rule) (word : string) (st : parse_state)
      (nl : bool) (s : xmk) :
  fresh s -> ~ In word (firstn 1 (syntax_rules r).(keywords)) ->
  check_rule r word st nl s = Ret (false, SEARCHING) (rejected word s).
Proof.
  intros (H1 & H2 & H3) Hw. unfold check_rule.
  assert (Hk : exists keyword rcp,
             nth_error (keywords (syntax_rules r)) 0 = Some keyword /\
             nth_error (recipe_list (syntax_rules r)) 0 = Some rcp /\
             nth_error rcp 0 = Some KEYWORD).
  { destruct r; simpl; eauto. }
  destruct Hk as (keyword & rcp & Hk & Hr & Hs).
  apply (check_rule_rec_rejects _ r word st nl s 0 0 0 keyword); auto.
  - eapply table_later_keyword; eauto.
  - lia.
  - left. apply nth_error_Some. congruence.
  - lia.
  - intros ->. apply Hw.
    destruct (keywords (syntax_rules r)); simpl in *; [discriminate|].
    left. congruence.
Qed.

Lemma search_fresh_rejects (rules : list rule) (word : string) (nl : bool) :
  forall (st : parse_state) (s : xmk),
    fresh s ->
    ~ In word (flat_map (fun r => firstn 1 (syntax_rules r).(keywords)) rules) ->
    search rules word st nl s
    = Ret (None, match rules with [] => st | _ => SEARCHING end)
          (match rules with [] => s | _ => rejected word s end).
Proof.
  induction rules as [|r rest IH]; intros st s Hf Hw; [reflexivity|].
  cbn [search].
  assert (Hl : lvl s < 2) by (destruct Hf as (H & _); eapply cell_lt; eauto).
  rewrite (bind_Ret _ _ _ _ _ (check_rule_fresh_rejects r word st nl s Hf
             ltac:(intros H; apply Hw; cbn [flat_map]; apply in_or_app; now left))).
  cbn iota beta.
  rewrite IH.
  - destruct rest; [reflexivity|]. now rewrite rejected_idem.
  - now apply rejected_fresh.
  - intros H. apply Hw. cbn [flat_map]. apply in_or_app. now right.
Qed.

Lemma check_syntax_loop_returns_0 (fuel : nat) :
  forall (c : cursor) (s s' : xmk) (z : Z),
    check_syntax_loop fuel c s = Ret z s' -> z = 0%Z.
Proof.
  induction fuel as [|fuel IH]; intros c s s' z H; [discriminate|].
  cbn [check_syntax_loop] in H.
  apply bind_inv in H as (next & s1 & _ & H).
  destruct next as [c'|].
  - eapply IH; eauto.
  - now injection H as <- _.
Qed.



(** ** The tokenizer *)

Lemma plain_inv (c : ascii) :
  plain c = true ->
  is_blank c = false /\ Ascii.eqb c NUL = false /\ Ascii.eqb c "#" = false
  /\ Ascii.eqb c QUOTE = false.
Proof.
  unfold plain. intros H.
  repeat (apply andb_true_iff in H as [H ?]).
  repeat split; now apply negb_true_iff.
Qed.

Lemma skip_plain (c : ascii) (rest : string) (from ln : nat) :
  plain c = true ->
  skip (String c rest) false false from ln = (Some (String c rest), from, ln, false).
Proof.
  intros H. apply plain_inv in H as (Hb & Hn & Hh & _).
  unfold is_blank in Hb.
  apply orb_false_iff in Hb as [Hb Hcr].
  apply orb_false_iff in Hb as [Hb Hlf].
  apply orb_false_iff in Hb as [Hsp Htab].
  cbn [skip]. now rewrite Hh, Hn, Hlf, Hcr, Htab, Hsp.
Qed.

Lemma scan_word_plain (w : string) :
  forall (rest : string) (i : nat),
    all_plain w = true ->
    i + strlen w <= LENGTHOF_word - 1 ->
    (i + strlen w = LENGTHOF_word - 1 \/ is_blank (first_byte rest) = true) ->
    rest <> EmptyString \/ i + strlen w = LENGTHOF_word - 1 ->
    scan_word false (w ++ rest) i = Some (w, i + strlen w, first_byte rest).
Proof.
  induction w as [|c w IH]; intros rest i Hp Hle Hstop Hrest.
  - cbn [append strlen String.length]. rewrite Nat.add_0_r.
    cbn [strlen String.length] in Hle, Hstop, Hrest. rewrite Nat.add_0_r in *.
    destruct rest as [|b rest]; cbn [scan_word first_byte].
    + destruct Hrest as [Hrest|Hrest]; [congruence|].
      rewrite Hrest. now rewrite Nat.ltb_irrefl.
    + destruct Hstop as [Hstop|Hb].
      * rewrite Hstop, Nat.ltb_irrefl, andb_false_r. reflexivity.
      * cbn [first_byte] in Hb. unfold in_word. rewrite Hb. reflexivity.
  - cbn [all_plain] in Hp. apply andb_true_iff in Hp as [Hc Hp].
    apply plain_inv in Hc as (Hb & _).
    cbn [strlen String.length] in Hle, Hstop, Hrest |- *.
    fold (strlen w) in *.
    cbn [append scan_word]. unfold in_word at 1. rewrite Hb. cbn [negb andb].
    assert (Hlt : (i <? LENGTHOF_word - 1) = true) by (apply Nat.ltb_lt; lia).
    rewrite Hlt.
    rewrite (IH rest (S i) Hp); try lia.
    + now rewrite Nat.add_succ_r.
    + destruct Hstop; [left; lia|now right].
    + destruct Hrest; [now left|right; lia].
Qed.

Lemma FATAL_ERROR_run {A} (func fmt : string) (s : xmk) :
  @FATAL_ERROR A func fmt s = Exit 1 (failed_with func fmt s).
Proof. reflexivity. Qed.

(** From 254 plain bytes on, an unquoted word is a fatal error. *)
Lemma long_word_is_fatal (fuel : nat) (s : xmk) (w rest : string) (c : ascii) :
  s.(file_buffer) = Some (String c w ++ rest) ->
  all_plain (String c w) = true ->
  strlen (String c w) = LENGTHOF_word - 1 ->
  get_word (S fuel) 0 s
  = Exit 1 (failed_with "get_word" "maximum word length has been exceeded"
                        (set_line s.(line) s)).
Proof.
  intros Hb Hp Hlen. cbn [get_word].
  unfold bind at 1, get at 1. rewrite Hb.
  replace (strlen (String c w ++ rest) <? 0) with false
    by (symmetry; apply Nat.ltb_ge; lia).
  cbn [string_drop append].
  pose proof Hp as Hp'. cbn [all_plain] in Hp'.
  apply andb_true_iff in Hp' as [Hc _].
  rewrite (skip_plain c (w ++ rest) 0 s.(line) Hc).
  unfold bind at 1, modify at 1.
  apply plain_inv in Hc as (_ & _ & _ & Hq).
  assert (Hnq : is_prefix (String QUOTE EmptyString) (String c (w ++ rest)) = false).
  { cbn [is_prefix]. rewrite Ascii.eqb_sym, Hq. reflexivity. }
  rewrite Hnq.
  change (String c (w ++ rest)) with (String c w ++ rest).
  rewrite (scan_word_plain (String c w) rest 0 Hp); try lia.
  cbn [Nat.add]. rewrite Hlen. rewrite Nat.leb_refl.
  reflexivity.
Qed.

(** Up to 253 plain bytes, an unquoted word that does not start with a
    dollar sign and is followed by a blank is returned as it stands. *)
Lemma short_word_is_returned (fuel : nat) (s : xmk) (w rest : string) (c b : ascii) :
  s.(file_buffer) = Some (String c w ++ String b rest) ->
  all_plain (String c w) = true ->
  is_blank b = true ->
  c <> "$"%char ->
  strlen (String c w) < LENGTHOF_word - 1 ->
  get_word (S fuel) 0 s
  = Ret (Some (String c w), strlen (String c w), false)
        (set_line (if Ascii.eqb b LF then S s.(line) else s.(line)) s).
Proof.
  intros Hb Hp Hbl Hc Hlen. cbn [get_word].
  unfold bind at 1, get at 1. rewrite Hb.
  replace (strlen (String c w ++ String b rest) <? 0) with false
    by (symmetry; apply Nat.ltb_ge; lia).
  cbn [string_drop append].
  pose proof Hp as Hp'. cbn [all_plain] in Hp'.
  apply andb_true_iff in Hp' as [Hpc _].
  rewrite (skip_plain c (w ++ String b rest) 0 s.(line) Hpc).
  unfold bind at 1, modify at 1.
  apply plain_inv in Hpc as (_ & _ & _ & Hq).
  assert (Hnq : is_prefix (String QUOTE EmptyString)
                          (String c (w ++ String b rest)) = false).
  { cbn [is_prefix]. rewrite Ascii.eqb_sym, Hq. reflexivity. }
  rewrite Hnq.
  change (String c (w ++ String b rest)) with (String c w ++ String b rest).
  rewrite (scan_word_plain (String c w) (String b rest) 0 Hp); try lia;
    [|now right|left; discriminate].
  cbn [Nat.add first_byte].
  replace (LENGTHOF_word - 1 <=? strlen (String c w)) with false
    by (symmetry; apply Nat.leb_gt; lia).
  unfold bind at 1, ret at 1.
  assert (Hcs : cstr (String c w) = String c w).
  { clear - Hp. induction (String c w) as [|d v IH]; [reflexivity|].
    cbn [all_plain] in Hp. apply andb_true_iff in Hp as [Hd Hv].
    apply plain_inv in Hd as (_ & Hn & _).
    cbn [cstr]. rewrite Hn. f_equal. auto. }
  rewrite Hcs.
  assert (Hnd : forall (X : Type) (k1 k2 k3 : string -> X) (k4 : X),
             match String c w with
             | String "$" (String "$" _) => k4
             | String "$" (String "(" _) => k4
             | String "$" name => k1 name
             | _ => k2 (String c w)
             end = k2 (String c w)).
  { intros. destruct c as [[] [] [] [] [] [] [] []]; try reflexivity.
    exfalso. now apply Hc. }
  cbn [negb andb].
  destruct (Ascii.eqb b LF) eqn:Hlf; unfold bind, modify, ret;
    destruct (1 <? strlen (String c w)) eqn:H1.
  all: cbn [set_line line config build_target current_scope file_buffer defines
            add_define_state stores lv sys trace].
  all: try (destruct c as [[] [] [] [] [] [] [] []]; try reflexivity;
            exfalso; now apply Hc).
Qed.

(** C5. A word of exactly 254 bytes is a fatal error of the tokenizer,
    and so is one of 255 bytes; one of 253 bytes is returned. *)
Theorem word_of_254_bytes_is_fatal :
  let s := loaded (mkConfig None false false false false)
                  (mkHost POSIX (fun _ => None) (fun _ f => (0%Z, f))) in
  get_word 1 0 (s (replicate 254 "a" ++ " "))
  = Exit 1 (failed_with "get_word" "maximum word length has been exceeded"
                        (s (replicate 254 "a" ++ " ")))
  /\ get_word 1 0 (s (replicate 255 "a" ++ " "))
     = Exit 1 (failed_with "get_word" "maximum word length has been exceeded"
                           (s (replicate 255 "a" ++ " ")))
  /\ get_word 1 0 (s (replicate 253 "a" ++ " "))
     = Ret (Some (replicate 253 "a"), 253, false) (s (replicate 253 "a" ++ " ")).
Proof.
  intros s. split; [|split].
  - apply (long_word_is_fatal 0 (s (replicate 254 "a" ++ " "))
             (replicate 253 "a") " " "a"); reflexivity.
  - apply (long_word_is_fatal 0 (s (replicate 255 "a" ++ " "))
             (replicate 253 "a") "a " "a"); reflexivity.
  - apply (short_word_is_returned 0 (s (replicate 253 "a" ++ " "))
             (replicate 252 "a") "" "a" " "); try reflexivity.
    + discriminate.
    + vm_compute. lia.
Qed.

(** ** [$(dep[N])] *)

(** With [strlen (dep_i_str)] as the bound, no digit is ever stored. *)
Lemma dep_scan_stores_nothing (text : string) :
  forall (st : dep_state) (s s' : xmk) (r : string * nat),
    dep_scan strlen text st EmptyString 0 s = Ret r s' -> r = (EmptyString, 0).
Proof.
  induction text as [|letter rest IH]; intros st s s' r H.
  - now injection H as <- _.
  - cbn [dep_scan] in H. destruct st.
    + eapply IH; eauto.
    + destruct (is_digit letter); [|discriminate].
      cbn [strlen String.length Nat.ltb Nat.leb] in H.
      destruct rest as [|c rest'].
      * apply bind_inv in H as (? & ? & _ & H). eapply IH; eauto.
      * destruct c as [[] [] [] [] [] [] [] []]; eapply IH; eauto.
    + eapply IH; eauto.
Qed.

Lemma dep_scan_digits (ds : string) :
  forall (s : xmk),
    all_digits ds = true -> ds <> EmptyString ->
    dep_scan strlen (ds ++ "])") INDEX EmptyString 0 s = Ret (EmptyString, 0) s.
Proof.
  induction ds as [|d ds IH]; intros s Hd Hne; [congruence|].
  cbn [all_digits] in Hd. apply andb_true_iff in Hd as [Hd Hds].
  cbn [append dep_scan]. rewrite Hd.
  cbn [strlen String.length Nat.ltb Nat.leb].
  destruct ds as [|d' ds'].
  - reflexivity.
  - specialize (IH s Hds ltac:(discriminate)).
    cbn [all_digits] in Hds. apply andb_true_iff in Hds as [Hd' _].
    cbn [append] in IH |- *.
    destruct d' as [[] [] [] [] [] [] [] []]; try discriminate Hd'; exact IH.
Qed.

(** In this revision the index written between the brackets is ignored:
    every [$(dep[N])] is the dependency at index 0. *)
Lemma dependency_index_is_ignored (ds : string) (s : xmk) :
  all_digits ds = true -> ds <> EmptyString ->
  get_dependency ("$(dep[" ++ ds ++ "])") s
  = dependency_at 0 ("$(dep[" ++ ds ++ "])") s.
Proof.
  intros Hd Hne. unfold get_dependency, get_dependency_with.
  cbn [strlen String.length string_drop append].
  cbn [dep_scan Ascii.eqb Bool.eqb].
  rewrite (bind_Ret _ _ _ _ _ (dep_scan_digits ds s Hd Hne)).
  reflexivity.
Qed.

(** C2. With the dependencies [a] and [b] declared, [$(dep[1])] is
    tokenized as [a], not as [b], and the out-of-range [$(dep[7])] is
    tokenized as [a] too instead of being fatal: the parsed commands are
    [cat a] twice. *)
Theorem dep_1_is_dependency_0 :
  exists s s',
    after_words 14 two_dependencies = Some s /\
    (s.(stores) DEPENDS_ON).(list_) = Some [Ptr [Ptr "a"; Ptr "b"]] /\
    s.(current_scope) = Some "out" /\
    get_dependency "$(dep[1])" s = Ret "a" s /\
    get_dependency "$(dep[7])" s = Ret "a" s /\
    after_words 20 two_dependencies = Some s' /\
    (s'.(stores) CREATED_USING).(list_) = Some [Ptr [Ptr "cat a"; Ptr "cat a"]].
Proof.
  eexists. eexists.
  split; [vm_compute; reflexivity|].
  split; [reflexivity|]. split; [reflexivity|].
  split; [vm_compute; reflexivity|]. split; [vm_compute; reflexivity|].
  split; [vm_compute; reflexivity|]. reflexivity.
Qed.

(** The earlier revision, which bounds the digits by the capacity of
    [dep_i_str], returns the dependency at the written index and is
    fatal beyond the last one. *)
Lemma XMK_C_dep_1_is_dependency_1 :
  exists s,
    after_words 14 two_dependencies = Some s /\
    get_dependency_XMK_C "$(dep[1])" s = Ret "b" s /\
    get_dependency_XMK_C "$(dep[7])" s
    = Exit 1 (failed_with "get_dependency"
                "Index %d exceeds number of defined dependencies" s).
Proof.
  eexists. split; [vm_compute; reflexivity|].
  split; vm_compute; reflexivity.
Qed.

(** ** The freshness rule *)

(** Under WIN32 the rule is the one of the specification. *)
Lemma update_needed_WIN32 (s : xmk) (target dep : string) (c : option nat)
      (cs : list (option nat)) :
  s.(sys).(platform) = WIN32 ->
  (s.(stores) TARGET).(list_size) = Some (c :: cs) ->
  update_needed target dep s
  = Ret (match s.(sys).(files) target, s.(sys).(files) dep with
         | Some tf, Some df =>
             match tf.(write_time), df.(write_time) with
             | Some target_time, Some dep_time => Z.gtb dep_time target_time
             | _, _ => true
             end
         | _, _ => true
         end) s.
Proof.
  intros Hp Hs. unfold update_needed, bind, get. rewrite Hp, Hs.
  cbn [load nth_error ret].
  destruct (files (sys s) target) as [tf|]; [|reflexivity].
  destruct (files (sys s) dep) as [df|]; [|reflexivity].
  destruct (write_time tf); [|reflexivity].
  destruct (write_time df); reflexivity.
Qed.

Lemma update_needed_POSIX (s : xmk) (target dep : string) :
  s.(sys).(platform) = POSIX -> update_needed target dep s = Ret true s.
Proof. intros Hp. unfold update_needed, bind, get. now rewrite Hp. Qed.

(** C3. Under POSIX a dependency older than its target still triggers
    the rebuild: [update_needed] answers [true] where the WIN32 code
    answers [false], and the up-to-date build runs its command again. *)
Theorem POSIX_update_needed_ignores_write_times :
  let s p := set_store TARGET (mkStore (Some [Ptr [Ptr "out"]]) (Some [Some 1]))
               (initial default_config (cp_host p up_to_date)) in
  update_needed "out" "in" (s POSIX) = Ret true (s POSIX) /\
  update_needed "out" "in" (s WIN32) = Ret false (s WIN32) /\
  (exists s', run 50 [] (cp_host POSIX up_to_date) = Ret 1%Z s' /\
              spawned s'.(trace) = ["cp in out"]) /\
  (exists s', run 50 [] (cp_host WIN32 up_to_date) = Ret 1%Z s' /\
              spawned s'.(trace) = []).
Proof.
  intros s. split; [reflexivity|]. split; [reflexivity|].
  split; eexists; (split; [vm_compute; reflexivity|reflexivity]).
Qed.

(** ** The executor *)

Lemma load_inv {A} (l : list A) (i : nat) (s s' : xmk) (a : A) :
  load l i s = Ret a s' -> s' = s /\ nth_error l i = Some a.
Proof.
  unfold load. destruct (nth_error l i); [|discriminate].
  intros H. injection H as -> ->. auto.
Qed.

Lemma deref_inv {A} (p : ptr A) (s s' : xmk) (a : A) :
  deref p s = Ret a s' -> s' = s /\ p = Ptr a.
Proof.
  destruct p; try discriminate. intros H. injection H as -> ->. auto.
Qed.

Lemma defined_inv {A} (o : option A) (s s' : xmk) (a : A) :
  defined o s = Ret a s' -> s' = s /\ o = Some a.
Proof.
  destruct o; try discriminate. intros H. injection H as -> ->. auto.
Qed.

Lemma target_exists_from_state (target : string) (k : nat) :
  forall (i : nat) (s s' : xmk) (r : option nat),
    target_exists_from target i k s = Ret r s' -> s' = s.
Proof.
  induction k as [|k IH]; intros i s s' r H.
  - now injection H as _ <-.
  - cbn [target_exists_from] in H. unfold bind at 1, get at 1 in H.
    destruct (list_ (stores s TARGET)) as [l|]; [|discriminate].
    apply bind_inv in H as (p & s1 & H1 & H). apply load_inv in H1 as [-> _].
    apply bind_inv in H as (tn & s1 & H1 & H). apply deref_inv in H1 as [-> _].
    apply bind_inv in H as (q & s1 & H1 & H). apply load_inv in H1 as [-> _].
    apply bind_inv in H as (t & s1 & H1 & H). apply deref_inv in H1 as [-> _].
    destruct (is_zero (strcmp t target)).
    + now injection H as _ <-.
    + eapply IH; eauto.
Qed.

(** [target_exists] changes nothing but, without a target table, the
    output, to which it adds its notice. *)
Lemma target_exists_state (target : option string) (s s' : xmk) (r : option nat) :
  target_exists target s = Ret r s' ->
  s' = s \/
  (r = None /\
   s' = set_trace (s.(trace)
                   ++ [Stdout ("No targets have been defined." ++ CRLF)]) s).
Proof.
  unfold target_exists. unfold bind at 1, get at 1.
  destruct target as [t|]; [destruct (list_size (stores s TARGET)) as [sz|]|].
  - intros H.
    apply bind_inv in H as (c & s1 & H1 & H). apply load_inv in H1 as [-> _].
    apply bind_inv in H as (k & s1 & H1 & H). apply defined_inv in H1 as [-> _].
    left. eapply target_exists_from_state; eauto.
  - intros H. injection H as <- <-. right. auto.
  - intros H. injection H as <- <-. right. auto.
Qed.

(** C10. A name that is no target but names an existing file is
    accepted by the executor: it returns 0, leaves the flag of its
    caller alone, spawns no command and reports no error. *)
Theorem existing_file_is_accepted (fuel : nat) (target : string)
        (parent_update_pending : option bool) (s s1 : xmk) (f : file) :
  target_exists (Some target) s = Ret None s1 ->
  s.(sys).(files) target = Some f ->
  execute_commands (S fuel) target parent_update_pending s
  = Ret (0%Z, parent_update_pending) s1
  /\ spawned s1.(trace) = spawned s.(trace)
  /\ (forall func fmt, In (Error func fmt) s1.(trace) ->
                       In (Error func fmt) s.(trace))
  /\ s1.(sys) = s.(sys).
Proof.
  intros Ht Hf.
  assert (Hs : s1.(sys) = s.(sys) /\ spawned s1.(trace) = spawned s.(trace) /\
               (forall func fmt, In (Error func fmt) s1.(trace) ->
                                 In (Error func fmt) s.(trace))).
  { destruct (target_exists_state _ _ _ _ Ht) as [->|[_ ->]]; [auto|].
    destruct s; cbn. split; [reflexivity|]. split.
    - unfold spawned. rewrite flat_map_app. cbn. now rewrite app_nil_r.
    - intros func fmt Hin. apply in_app_or in Hin as [Hin|[Hin|[]]]; auto.
      discriminate. }
  destruct Hs as (Hsys & Hsp & Herr).
  repeat split; auto.
  cbn [execute_commands]. rewrite (bind_Ret _ _ _ _ _ Ht).
  unfold file_exists, bind, get, cleanup, ret. rewrite Hsys, Hf. reflexivity.
Qed.

Lemma existing_file_is_accepted_witness :
  let s := initial default_config
                   (cp_host POSIX (add_file "in" (written 1) no_files)) in
  execute_commands 1 "in" None
    (set_store TARGET (mkStore (Some [Ptr [Ptr "out"]]) (Some [Some 1])) s)
  = Ret (0%Z, None)
        (set_store TARGET (mkStore (Some [Ptr [Ptr "out"]]) (Some [Some 1])) s).
Proof.
  intros s.
  apply (existing_file_is_accepted 0 "in" None _ _ (written 1)); reflexivity.
Defined.

(** A registered target never yields 0: [ex_build_target] ends in
    [return 1]. *)
Lemma registered_target_returns_1 (fuel : nat) (target : string)
      (parent_update_pending : option bool) (s s1 s' : xmk) (i : nat)
      (z : Z) (flag : option bool) :
  target_exists (Some target) s = Ret (Some i) s1 ->
  execute_commands (S fuel) target parent_update_pending s = Ret (z, flag) s' ->
  z = 1%Z.
Proof.
  intros Ht H. cbn [execute_commands] in H.
  rewrite (bind_Ret _ _ _ _ _ Ht) in H. unfold ex_build_target_with in H.
  unfold bind at 1, get at 1 in H.
  apply bind_inv in H as (up & s2 & _ & H).
  apply bind_inv in H as (u & s3 & _ & H).
  now injection H as <- _ _.
Qed.

(** C1. On the successful run of the first scenario, where the one
    command is spawned, exits with 0 and leaves [out] behind, [main]
    returns 1, and so under either platform. *)
Theorem successful_build_exits_with_1 :
  forall p : os,
  exists s',
    run 50 [] (cp_host p before_build) = Ret 1%Z s' /\
    trace s' = [Stdout ("cp in out" ++ CRLF); Spawn "cp in out"] /\
    is_file "out" s' = true /\
    exit_code (run 50 [] (cp_host p before_build)) = Some 1%Z.
Proof.
  intros [|]; eexists;
    (split; [vm_compute; reflexivity|]);
    (split; [reflexivity|]); split; reflexivity.
Qed.

(** C4. With [lib] shared by [x] and [y], the executor enters the
    command list of [lib] a second time within one invocation: after
    [make lib] and [make x] were spawned, the visit of [lib] on behalf of
    [y] hands the command it freed after the first run to the command
    loop again.  Under POSIX this happens on a clean build; under WIN32
    when the first run left [lib] older than [lib.c]. *)
Theorem shared_dependency_is_run_again :
  (exists s',
     run 200 [] (mkHost POSIX diamond_sources diamond_shell)
     = Undefined UseAfterFree s' /\
     spawned s'.(trace) = ["make lib"; "make x"] /\
     target_exists (Some "lib") s' = Ret (Some 3) s' /\
     run_commands 3 0 1 s' = Undefined UseAfterFree s') /\
  (exists s',
     run 200 [] (mkHost WIN32 diamond_stale (fun _ fs => (0%Z, fs)))
     = Undefined UseAfterFree s' /\
     spawned s'.(trace) = ["make lib"; "make x"] /\
     target_exists (Some "lib") s' = Ret (Some 3) s' /\
     run_commands 3 0 1 s' = Undefined UseAfterFree s').
Proof.
  split; eexists;
    (split; [vm_compute; reflexivity|]);
    (split; [reflexivity|]); (split; [reflexivity|]); reflexivity.
Qed.

(** ** Properties kept by the parser *)

Lemma keeps_ret {A} (P Q : xmk -> Prop) (a : A) : keeps P Q (ret a).
Proof. intros s H. exact H. Qed.

Lemma keeps_bind {A B} (P Q : xmk -> Prop) (m : M A) (f : A -> M B) :
  keeps P Q m -> (forall a, keeps P Q (f a)) -> keeps P Q (bind m f).
Proof.
  intros Hm Hf s H. unfold bind. specialize (Hm s H).
  destruct (m s) as [a s1| | |]; auto. now apply Hf.
Qed.

Lemma keeps_get (P Q : xmk -> Prop) : keeps P Q get.
Proof. intros s H. exact H. Qed.

Lemma keeps_modify (P Q : xmk -> Prop) (f : xmk -> xmk) :
  (forall s, P s -> P (f s)) -> keeps P Q (modify f).
Proof. intros Hf s H. now apply Hf. Qed.

Lemma keeps_undefined {A} (P Q : xmk -> Prop) (u : ub) :
  (forall s, P s -> Q s) -> keeps P Q (@undefined A u).
Proof. intros PQ s H. now apply PQ. Qed.

Lemma keeps_out_of_fuel {A} (P Q : xmk -> Prop) : keeps P Q (@out_of_fuel A).
Proof. intros s H. exact I. Qed.

Lemma keeps_Ret {A} (P Q : xmk -> Prop) (m : M A) (s s' : xmk) (a : A) :
  keeps P Q m -> P s -> m s = Ret a s' -> P s'.
Proof. intros Hm H E. specialize (Hm s H). now rewrite E in Hm. Qed.

(** One step of a proof that a computation keeps a property: the
    structure of the computation is followed, the facts at hand are
    tried on what remains. *)
Ltac keeps_step :=
  lazymatch goal with
  | |- keeps _ _ (bind _ _) => apply keeps_bind; [|intros ?]
  | |- keeps _ _ (ret _) => apply keeps_ret
  | |- keeps _ _ get => apply keeps_get
  | |- keeps _ _ (undefined _) => apply keeps_undefined; solve [eauto]
  | |- keeps _ _ out_of_fuel => apply keeps_out_of_fuel
  | |- keeps _ _ (modify _) =>
      apply keeps_modify; intros; cbv beta; solve [eauto]
  | |- keeps _ _ (match ?x with _ => _ end) => destruct x
  | |- keeps _ _ (let (_, _) := ?x in _) => destruct x
  | |- _ => solve [eauto]
  end.

Ltac keeps_auto := repeat keeps_step.

Section Kept.

Variables P Q : xmk -> Prop.

Hypothesis PQ : forall s, P s -> Q s.
Hypothesis Q_trace :
  forall e s, is_spawn e = false -> Q s -> Q (set_trace (s.(trace) ++ [e]) s).

Hypothesis P_line : forall l s, P s -> P (set_line l s).
Hypothesis P_defines : forall d s, P s -> P (set_defines d s).
Hypothesis P_define_state : forall d s, P s -> P (set_define_state d s).
Hypothesis P_lv : forall l s, P s -> P (set_lv l s).
Hypothesis P_scope : forall c s, P s -> P (set_scope c s).
Hypothesis P_build : forall b s, P s -> P (set_build b s).
Hypothesis P_buffer : forall b s, P s -> P (set_buffer (Some b) s).
Hypothesis P_trace :
  forall e s, is_spawn e = false -> P s -> P (set_trace (s.(trace) ++ [e]) s).

Lemma keeps_emit (e : event) : is_spawn e = false -> keeps P Q (emit e).
Proof. intros He. apply keeps_modify. intros s H. now apply P_trace. Qed.

Lemma keeps_FATAL_ERROR {A} (func fmt : string) :
  keeps P Q (@FATAL_ERROR A func fmt).
Proof. intros s H. rewrite FATAL_ERROR_run. apply Q_trace; auto. Qed.

Lemma keeps_load {A} (l : list A) (i : nat) : keeps P Q (load l i).
Proof. unfold load. keeps_auto. Qed.

Lemma keeps_load0 {A} (l : list A) (i : nat) : keeps P Q (load0 l i).
Proof. unfold load0. keeps_auto. Qed.

Lemma keeps_store {A} (l : list A) (i : nat) (a : A) : keeps P Q (store l i a).
Proof. unfold store. keeps_auto. Qed.

Lemma keeps_deref {A} (p : ptr A) : keeps P Q (deref p).
Proof. unfold deref. keeps_auto. Qed.

Lemma keeps_defined {A} (o : option A) : keeps P Q (defined o).
Proof. unfold defined. keeps_auto. Qed.

Lemma keeps_in_bounds {A} (o : option A) : keeps P Q (in_bounds o).
Proof. unfold in_bounds. keeps_auto. Qed.

Lemma keeps_some_or_null {A} (o : option A) : keeps P Q (some_or_null o).
Proof. unfold some_or_null. keeps_auto. Qed.

Lemma keeps_before (k : nat) : keeps P Q (before k).
Proof. unfold before. keeps_auto. Qed.

Lemma keeps_LOGV (func fmt : string) : keeps P Q (LOGV func fmt).
Proof.
  unfold LOGV, verbose. keeps_auto. now apply keeps_emit.
Qed.

Lemma keeps_LOGVV (func fmt : string) : keeps P Q (LOGVV func fmt).
Proof.
  unfold LOGVV, extra_verbose. keeps_auto. now apply keeps_emit.
Qed.

Hint Resolve keeps_FATAL_ERROR keeps_load keeps_load0 keeps_store keeps_deref
     keeps_defined keeps_in_bounds keeps_some_or_null keeps_before
     keeps_LOGV keeps_LOGVV : core.

Lemma keeps_times (k : nat) (m : M unit) : keeps P Q m -> keeps P Q (times k m).
Proof. intros Hm. induction k; cbn [times]; keeps_auto. Qed.

Lemma keeps_target_exists_from (target : string) (k : nat) :
  forall i, keeps P Q (target_exists_from target i k).
Proof. induction k; intros i; cbn [target_exists_from]; keeps_auto. Qed.

Hint Resolve keeps_times keeps_target_exists_from : core.

Lemma keeps_target_exists (target : option string) :
  keeps P Q (target_exists target).
Proof.
  unfold target_exists. keeps_auto; now apply keeps_emit.
Qed.

Lemma keeps_get_basename (w : string) : keeps P Q (get_basename w).
Proof. unfold get_basename. keeps_auto. Qed.

Lemma keeps_get_extension (w : string) : keeps P Q (get_extension w).
Proof. unfold get_extension. keeps_auto. Qed.

Lemma keeps_dep_scan (room : string -> nat) (text : string) :
  forall st str idx, keeps P Q (dep_scan room text st str idx).
Proof.
  induction text as [|c text IH]; intros st str idx; cbn [dep_scan];
    keeps_auto.
  now apply keeps_emit.
Qed.

Hint Resolve keeps_target_exists keeps_get_basename keeps_get_extension
     keeps_dep_scan : core.

Lemma keeps_dependency_at (i : nat) (w : string) : keeps P Q (dependency_at i w).
Proof. unfold dependency_at. keeps_auto. Qed.

Hint Resolve keeps_dependency_at : core.

Lemma keeps_get_dependency (w : string) : keeps P Q (get_dependency w).
Proof. unfold get_dependency, get_dependency_with. keeps_auto. Qed.

Lemma keeps_is_define_from (name : string) (k : nat) :
  forall i, keeps P Q (is_define_from name i k).
Proof. induction k; intros i; cbn [is_define_from]; keeps_auto. Qed.

Hint Resolve keeps_get_dependency keeps_is_define_from : core.

Lemma keeps_is_define (name : string) : keeps P Q (is_define name).
Proof. unfold is_define. keeps_auto. Qed.

Lemma keeps_expand_define (from : nat) (w : string) :
  keeps P Q (expand_define from w).
Proof. unfold expand_define. keeps_auto. Qed.

Lemma keeps_variable (fmt : string) (f : string -> M string) :
  (forall w, keeps P Q (f w)) -> keeps P Q (variable fmt f).
Proof. intros Hf. unfold variable. keeps_auto. Qed.

Hint Resolve keeps_is_define keeps_expand_define keeps_variable : core.

Lemma keeps_get_word (fuel : nat) : forall from, keeps P Q (get_word fuel from).
Proof.
  induction fuel as [|fuel IH]; intros from; cbn [get_word]; keeps_auto.
  all: try (apply keeps_variable; intros; keeps_auto).
Qed.

Lemma keeps_set_build_target (w : string) : keeps P Q (set_build_target w).
Proof. unfold set_build_target. keeps_auto. Qed.

Lemma keeps_add_define (w : string) : keeps P Q (add_define w).
Proof. unfold add_define. keeps_auto. Qed.

Lemma keeps_level : keeps P Q level.
Proof. unfold level. keeps_auto. Qed.

Lemma keeps_set_level (k : nat) : keeps P Q (set_level k).
Proof. unfold set_level. keeps_auto. Qed.

Lemma keeps_get_step_i : keeps P Q get_step_i.
Proof. unfold get_step_i. keeps_auto. Qed.

Lemma keeps_get_keyword_i : keeps P Q get_keyword_i.
Proof. unfold get_keyword_i. keeps_auto. Qed.

Lemma keeps_get_recipe_i : keeps P Q get_recipe_i.
Proof. unfold get_recipe_i. keeps_auto. Qed.

Lemma keeps_set_step_i (v : nat) : keeps P Q (set_step_i v).
Proof. unfold set_step_i. keeps_auto. Qed.

Lemma keeps_set_keyword_i (v : nat) : keeps P Q (set_keyword_i v).
Proof. unfold set_keyword_i. keeps_auto. Qed.

Lemma keeps_set_recipe_i (v : nat) : keeps P Q (set_recipe_i v).
Proof. unfold set_recipe_i. keeps_auto. Qed.

Hint Resolve keeps_set_build_target keeps_add_define keeps_level
     keeps_set_level keeps_get_step_i keeps_get_keyword_i keeps_get_recipe_i
     keeps_set_step_i keeps_set_keyword_i keeps_set_recipe_i : core.

Lemma keeps_reset_indices : keeps P Q reset_indices.
Proof. unfold reset_indices. keeps_auto. Qed.

Lemma keeps_pop_level : keeps P Q pop_level.
Proof. unfold pop_level. keeps_auto. Qed.

Hint Resolve keeps_reset_indices keeps_pop_level : core.

Lemma keeps_advance (rcp : list recipe) : keeps P Q (advance rcp).
Proof. unfold advance. keeps_auto. Qed.

Hint Resolve keeps_advance : core.

(** The three functions that write to the tables. *)
Hypothesis K_add_target : forall w, keeps P Q (add_target w).
Hypothesis K_opened : keeps P Q target_scope_block_opened.
Hypothesis K_list : forall r w st nl, keeps P Q (handle_list r w st nl).

Lemma keeps_scope (r : rule) (w : string) (st : parse_state) :
  keeps P Q (scope r w st).
Proof.
  unfold scope. destruct r; cbn [syntax_rules scope_block_opened];
    unfold created_using_scope_block_opened, depends_on_scope_block_opened;
    keeps_auto.
Qed.

Lemma keeps_add_symbol (r : rule) (w : string) : keeps P Q (add_symbol r w).
Proof.
  unfold add_symbol. destruct r; cbn [syntax_rules symbol_callback]; keeps_auto.
Qed.

Hint Resolve keeps_scope keeps_add_symbol : core.

Lemma keeps_check_rule_rec (fuel : nat) :
  forall r w st nl, keeps P Q (check_rule_rec fuel r w st nl).
Proof.
  induction fuel as [|fuel IH]; intros r w st nl; cbn [check_rule_rec];
    keeps_auto.
Qed.

Lemma keeps_check_rule (r : rule) (w : string) (st : parse_state) (nl : bool) :
  keeps P Q (check_rule r w st nl).
Proof. apply keeps_check_rule_rec. Qed.

Hint Resolve keeps_check_rule : core.

Lemma keeps_search (rules : list rule) (w : string) (nl : bool) :
  forall st, keeps P Q (search rules w st nl).
Proof. induction rules; intros st; cbn [search]; keeps_auto. Qed.

Hint Resolve keeps_search keeps_get_word : core.

Lemma keeps_check_syntax_step (fuel : nat) (c : cursor) :
  keeps P Q (check_syntax_step fuel c).
Proof. unfold check_syntax_step. keeps_auto. Qed.

Hint Resolve keeps_check_syntax_step : core.

Lemma keeps_steps (fuel k : nat) : forall c, keeps P Q (steps fuel k c).
Proof. induction k; intros c; cbn [steps]; keeps_auto. Qed.

Lemma keeps_check_syntax_loop (fuel : nat) :
  forall c, keeps P Q (check_syntax_loop fuel c).
Proof. induction fuel; intros c; cbn [check_syntax_loop]; keeps_auto. Qed.

Lemma keeps_check_syntax (fuel : nat) : keeps P Q (check_syntax fuel).
Proof. apply keeps_check_syntax_loop. Qed.

End Kept.

(** ** What parsing leaves alone *)

Lemma spawned_snoc (t : list event) (e : event) :
  is_spawn e = false -> spawned (t ++ [e]) = spawned t.
Proof.
  intros He. unfold spawned. rewrite flat_map_app. cbn.
  destruct e; try discriminate; apply app_nil_r.
Qed.

Section Untouched.

Variable s0 : xmk.

Local Lemma U_line l s : untouched s0 s -> untouched s0 (set_line l s).
Proof. exact (fun H => H). Qed.
Local Lemma U_defines d s : untouched s0 s -> untouched s0 (set_defines d s).
Proof. exact (fun H => H). Qed.
Local Lemma U_define_state d s : untouched s0 s -> untouched s0 (set_define_state d s).
Proof. exact (fun H => H). Qed.
Local Lemma U_lv l s : untouched s0 s -> untouched s0 (set_lv l s).
Proof. exact (fun H => H). Qed.
Local Lemma U_scope c s : untouched s0 s -> untouched s0 (set_scope c s).
Proof. exact (fun H => H). Qed.
Local Lemma U_build b s : untouched s0 s -> untouched s0 (set_build b s).
Proof. exact (fun H => H). Qed.
Local Lemma U_store r v s : untouched s0 s -> untouched s0 (set_store r v s).
Proof. exact (fun H => H). Qed.
Local Lemma U_buffer b s : untouched s0 s -> untouched s0 (set_buffer (Some b) s).
Proof.
  intros (H1 & H2 & H3 & _). repeat split; auto. discriminate.
Qed.
Local Lemma U_trace e s :
  is_spawn e = false -> untouched s0 s -> untouched s0 (set_trace (s.(trace) ++ [e]) s).
Proof.
  intros He (H1 & H2 & H3 & H4). repeat split; auto.
  cbn. now rewrite spawned_snoc.
Qed.

Local Lemma U_basics :
  (forall A func fmt, keeps (untouched s0) (untouched s0) (@FATAL_ERROR A func fmt)) /\
  (forall func fmt, keeps (untouched s0) (untouched s0) (LOGV func fmt)) /\
  (forall A (l : list A) i, keeps (untouched s0) (untouched s0) (load l i)) /\
  (forall A (l : list A) i a, keeps (untouched s0) (untouched s0) (store l i a)) /\
  (forall A (p : ptr A), keeps (untouched s0) (untouched s0) (deref p)) /\
  (forall A (o : option A), keeps (untouched s0) (untouched s0) (defined o)) /\
  (forall A (o : option A), keeps (untouched s0) (untouched s0) (some_or_null o)) /\
  (forall k, keeps (untouched s0) (untouched s0) (before k)) /\
  (forall k m, keeps (untouched s0) (untouched s0) m -> keeps (untouched s0) (untouched s0) (times k m)).
Proof.
  pose proof U_trace as T.
  split; [intros A func fmt; apply keeps_FATAL_ERROR; auto|].
  split; [intros func fmt; apply keeps_LOGV; auto|].
  split; [intros A l i; apply keeps_load; auto|].
  split; [intros A l i a; apply keeps_store; auto|].
  split; [intros A p; apply keeps_deref; auto|].
  split; [intros A o; apply keeps_defined; auto|].
  split; [intros A o; apply keeps_some_or_null; auto|].
  split; [intros k; apply keeps_before; auto|].
  intros k m Hm; apply keeps_times; auto.
Qed.

Local Lemma U_add_target w : keeps (untouched s0) (untouched s0) (add_target w).
Proof.
  destruct U_basics as (? & ? & ? & ? & ? & ? & ? & ? & ?);
    pose proof U_store; pose proof U_scope.
  assert (forall t tn k i, keeps (untouched s0) (untouched s0) (repeated_from t tn i k)).
  { intros t tn k. induction k; intros i; cbn [repeated_from]; keeps_auto. }
  unfold add_target. keeps_auto.
Qed.

Local Lemma U_create_basic_tree r : keeps (untouched s0) (untouched s0) (create_basic_tree r).
Proof. destruct U_basics as (? & ? & ? & ? & ? & ? & ? & ? & ?);
    pose proof U_store; pose proof U_scope. unfold create_basic_tree. keeps_auto. Qed.

Local Lemma U_opened : keeps (untouched s0) (untouched s0) target_scope_block_opened.
Proof.
  pose proof U_create_basic_tree. destruct U_basics as (? & ? & ? & ? & ? & ? & ? & ? & ?);
    pose proof U_store; pose proof U_scope.
  unfold target_scope_block_opened. keeps_auto.
Qed.

Local Lemma U_list r w st nl : keeps (untouched s0) (untouched s0) (handle_list r w st nl).
Proof.
  destruct U_basics as (? & ? & ? & ? & ? & ? & ? & ? & ?);
    pose proof U_store; pose proof U_scope.
  assert (forall r w st, keeps (untouched s0) (untouched s0) (scope r w st)).
  { intros. apply keeps_scope; auto using U_trace, U_opened. }
  assert (forall sz i, keeps (untouched s0) (untouched s0) (bump sz i)).
  { intros. unfold bump. keeps_auto. }
  unfold handle_list. keeps_auto.
Qed.

Lemma check_syntax_untouched (fuel : nat) : keeps (untouched s0) (untouched s0) (check_syntax fuel).
Proof.
  apply keeps_check_syntax;
    auto using U_trace, U_line, U_defines, U_define_state, U_lv, U_scope,
               U_build, U_buffer, U_add_target, U_opened, U_list.
Qed.

End Untouched.

(** ** Preprocessing only *)



(** ** The three tables *)

Lemma store_inv {A} (l : list A) (i : nat) (a : A) (s s' : xmk) (l' : list A) :
  store l i a s = Ret l' s' -> s' = s /\ update l i a = Some l'.
Proof.
  unfold store. destruct (update l i a); [|discriminate].
  intros H. injection H as -> ->. auto.
Qed.

Lemma before_inv (k : nat) (s s' : xmk) (j : nat) :
  before k s = Ret j s' -> s' = s /\ k = S j.
Proof.
  destruct k; [discriminate|]. intros H. injection H as -> ->. auto.
Qed.

Lemma some_or_null_inv {A} (o : option A) (s s' : xmk) (a : A) :
  some_or_null o s = Ret a s' -> s' = s /\ o = Some a.
Proof.
  destruct o; [|discriminate]. intros H. injection H as -> ->. auto.
Qed.

Lemma update_length {A} (l : list A) :
  forall (i : nat) (a : A) (l' : list A),
    update l i a = Some l' -> length l' = length l.
Proof.
  induction l as [|x l IH]; intros i a l' H; [discriminate|].
  destruct i as [|i]; cbn [update] in H.
  - now injection H as <-.
  - destruct (update l i a) as [m|] eqn:E; [|discriminate].
    injection H as <-. cbn. f_equal. eapply IH; eauto.
Qed.

Lemma realloc_length {A} (l : list A) (k : nat) (fill : A) :
  length (realloc l k fill) = k.
Proof.
  unfold realloc. rewrite length_app, repeat_length, length_firstn. lia.
Qed.

Lemma bump_inv (sz : list (option nat)) (i : nat) (s s' : xmk)
      (sz' : list (option nat)) :
  bump sz i s = Ret sz' s' ->
  s' = s /\ length sz' = length sz /\ first_count sz <= first_count sz'.
Proof.
  unfold bump. intros H.
  apply bind_inv in H as (c & s1 & H1 & H). apply load_inv in H1 as [-> Hc].
  apply bind_inv in H as (v & s1 & H1 & H). apply defined_inv in H1 as [-> ->].
  apply store_inv in H as [-> H]. split; [reflexivity|].
  split; [eapply update_length; eauto|].
  destruct sz as [|x sz]; [discriminate|].
  destruct i as [|i]; cbn [update] in H.
  - injection H as <-. cbn in Hc. injection Hc as ->. cbn. lia.
  - destruct (update sz i (Some (S v))); [|discriminate].
    injection H as <-. reflexivity.
Qed.

Lemma level_tables_lengths (s : xmk) :
  level_tables s ->
  table_length DEPENDS_ON s = table_length CREATED_USING s /\
  table_length DEPENDS_ON s <= target_count s.
Proof.
  unfold level_tables, shape, table_length.
  intros [[Hd Hc]|(k & Hd & Hc & Hk)].
  - destruct (list_ (stores s DEPENDS_ON)); [discriminate|].
    destruct (list_ (stores s CREATED_USING)); [discriminate|].
    split; [reflexivity|lia].
  - destruct (list_ (stores s DEPENDS_ON)); [|discriminate].
    destruct (list_ (stores s CREATED_USING)); [|discriminate].
    cbn in Hd, Hc. injection Hd as Hd _. injection Hc as Hc _. lia.
Qed.

Lemma scope_closed (r : rule) (w : string) (st st' : parse_state) (s s' : xmk) :
  scope r w st s = Ret (false, st') s' -> s' = s.
Proof.
  unfold scope. destruct (one_char w) as [c|].
  - destruct (Ascii.eqb c "{").
    + intros H.
      apply bind_inv in H as (? & ? & _ & H).
      apply bind_inv in H as (? & ? & _ & H).
      destruct (scope_block_opened (syntax_rules r)); [|discriminate].
      apply bind_inv in H as (? & ? & _ & H). discriminate.
    + destruct (Ascii.eqb c "}"); [discriminate|].
      intros H. now injection H as _ <-.
  - intros H. now injection H as _ <-.
Qed.

Lemma get_inv (s s' a : xmk) : get s = Ret a s' -> s' = s /\ a = s.
Proof. intros H. injection H as -> ->. auto. Qed.

Lemma ret_inv {A} (a b : A) (s s' : xmk) : ret a s = Ret b s' -> s' = s /\ b = a.
Proof. intros H. injection H as -> ->. auto. Qed.

Lemma modify_inv (f : xmk -> xmk) (s s' : xmk) (u : unit) :
  modify f s = Ret u s' -> s' = f s.
Proof. intros H. now injection H as _ <-. Qed.

Lemma same_but_trace_refl (s : xmk) : same_but_trace s s.
Proof. exists (trace s). now destruct s. Qed.

Lemma LOGV_inv (func fmt : string) (s s' : xmk) (u : unit) :
  LOGV func fmt s = Ret u s' -> same_but_trace s s'.
Proof.
  unfold LOGV, verbose, bind, get, ret.
  destruct (verbose_flag (config s)); intros H; injection H as _ <-.
  - eexists; reflexivity.
  - apply same_but_trace_refl.
Qed.

Lemma same_but_trace_trans (a b c : xmk) :
  same_but_trace a b -> same_but_trace b c -> same_but_trace a c.
Proof. intros [t ->] [u ->]. exists u. now destruct a. Qed.

Lemma times_LOGV_inv (k : nat) (func fmt : string) :
  forall (s s' : xmk) (u : unit),
    times k (LOGV func fmt) s = Ret u s' -> same_but_trace s s'.
Proof.
  induction k as [|k IH]; intros s s' u H.
  - injection H as _ <-. apply same_but_trace_refl.
  - cbn [times] in H. apply bind_inv in H as (? & s1 & H1 & H).
    eapply same_but_trace_trans; [eapply LOGV_inv; eauto|eapply IH; eauto].
Qed.

Lemma repeated_from_state (target : string) (tn : list (ptr string)) (k : nat) :
  forall (i : nat) (s s' : xmk) (b : bool),
    repeated_from target tn i k s = Ret b s' -> s' = s.
Proof.
  induction k as [|k IH]; intros i s s' b H.
  - now injection H as _ <-.
  - cbn [repeated_from] in H.
    apply bind_inv in H as (p & s1 & H1 & H). apply load_inv in H1 as [-> _].
    destruct p; [eapply IH; eauto| |discriminate|discriminate].
    apply bind_inv in H as (t & s1 & H1 & H). apply deref_inv in H1 as [-> _].
    destruct (is_zero (strcmp t target)); [now injection H as _ <-|].
    eapply IH; eauto.
Qed.

(** Inversion of a run that returned: one primitive, or one [bind]
    followed by the inversion of the primitive it starts with. *)
Ltac prim_inv E :=
  first [ apply get_inv in E as [? ?]
        | apply load_inv in E as [? E]
        | apply deref_inv in E as [? E]
        | apply defined_inv in E as [? E]
        | apply store_inv in E as [? E]
        | apply before_inv in E as [? E]
        | apply some_or_null_inv in E as [? E]
        | apply modify_inv in E
        | apply ret_inv in E as [? ?]
        | idtac ];
  subst.

Ltac bind_step H :=
  let a := fresh "a" in
  let s1 := fresh "s" in
  let E := fresh "E" in
  apply bind_inv in H as (a & s1 & E & H); prim_inv E.

Lemma add_target_tables (w : string) (s s' : xmk) (u : unit) :
  add_target w s = Ret u s' ->
  s'.(stores) DEPENDS_ON = s.(stores) DEPENDS_ON /\
  s'.(stores) CREATED_USING = s.(stores) CREATED_USING /\
  target_count s' = S (target_count s).
Proof.
  intros H. unfold add_target in H.
  bind_step H.
  apply bind_inv in H as (rep & s1 & H1 & H).
  assert (s1 = s) as ->.
  { destruct (list_ (stores s TARGET)) as [l|];
      [destruct (list_size (stores s TARGET)) as [sz|]|].
    - bind_step H1. bind_step H1.
      destruct a0; [now injection H1 as _ <-|].
      bind_step H1. bind_step H1.
      eapply repeated_from_state; eauto.
    - now injection H1 as _ <-.
    - now injection H1 as _ <-. }
  clear H1. destruct rep; [discriminate|]. cbn [negb] in H.
  apply bind_inv in H as (u1 & s1 & H1 & H).
  assert (G : s1.(stores) DEPENDS_ON = s.(stores) DEPENDS_ON /\
              s1.(stores) CREATED_USING = s.(stores) CREATED_USING /\
              target_count s1 = target_count s).
  { destruct (list_ (stores s TARGET)) as [l|] eqn:El.
    - bind_step H1. destruct a.
      + prim_inv H1. auto.
      + bind_step H1.
        destruct (list_size (stores s TARGET)) as [sz|] eqn:Es; [|discriminate].
        bind_step H1. bind_step H1. bind_step H1. prim_inv H1.
        unfold target_count. cbn. rewrite Es. auto.
      + discriminate.
      + discriminate.
    - destruct (list_size (stores s TARGET)) as [sz|] eqn:Es; [discriminate|].
      prim_inv H1. unfold target_count. cbn. rewrite Es. auto. }
  destruct G as (G1 & G2 & G3). rewrite <- G1, <- G2, <- G3. clear G1 G2 G3 H1.
  bind_step H.
  destruct (list_ (stores s1 TARGET)) as [l|] eqn:El; [|discriminate].
  destruct (list_size (stores s1 TARGET)) as [sz|] eqn:Es; [|discriminate].
  bind_step H.
  assert (G : forall tn, deref a s1 = Ret tn s1 ->
     (c <- load sz 0 ;;
      k <- defined c ;;
      tnames' <- store tn k (Ptr w) ;;
      l' <- store l 0 (Ptr tnames') ;;
      sz' <- store sz 0 (Some (S k)) ;;
      modify (set_store TARGET (mkStore (Some l') (Some sz'))) ;;
      LOGV "add_target" "Targets list: %zu" ;;
      times (S k) (LOGV "add_target" "%zu/%zu: %s")) s1 = Ret u s' ->
     stores s' DEPENDS_ON = stores s1 DEPENDS_ON /\
     stores s' CREATED_USING = stores s1 CREATED_USING /\
     target_count s' = S (target_count s1)).
  { clear H. intros tn _ H.
    bind_step H. bind_step H. bind_step H. bind_step H. bind_step H.
    bind_step H. apply bind_inv in H as (u2 & s2 & H2 & H).
    apply LOGV_inv in H2. apply times_LOGV_inv in H.
    destruct (same_but_trace_trans _ _ _ H2 H) as [t ->].
    unfold target_count. cbn. rewrite Es.
    destruct sz as [|x sz]; [discriminate|].
    cbn in E3. injection E3 as <-. cbn in E0. injection E0 as ->.
    auto. }
  destruct a; try discriminate.
  - apply bind_inv in H as (tn & s2 & H2 & H).
    pose proof H2 as H3. apply deref_inv in H3 as [-> _]. eauto.
Qed.

Lemma rule_eqb_neq (a b : rule) : a <> b -> rule_eqb a b = false.
Proof. destruct a, b; try reflexivity; congruence. Qed.

Lemma create_basic_tree_tables (r : rule) (s s' : xmk) (u : unit) :
  r <> TARGET ->
  create_basic_tree r s = Ret u s' ->
  1 <= target_count s /\
  target_count s' = target_count s /\
  (forall r', r' <> r -> s'.(stores) r' = s.(stores) r') /\
  shape (s'.(stores) r)
  = match shape (s.(stores) r) with
    | (None, None) => (Some 1, Some 1)
    | (Some _, Some _) => (Some (target_count s), Some (target_count s))
    | other => other
    end.
Proof.
  intros Hr H. unfold create_basic_tree in H.
  bind_step H. apply bind_inv in H as (sz & s1 & H1 & H).
  destruct (list_size (stores s TARGET)) as [tsz|] eqn:Es; [|discriminate].
  prim_inv H1.
  bind_step H. bind_step H.
  apply bind_inv in H as (l & s1 & H1 & H).
  destruct (list_ (stores s TARGET)) as [tl|] eqn:El; [|discriminate].
  prim_inv H1.
  bind_step H. bind_step H. bind_step H. bind_step H. bind_step H.
  bind_step H.
  assert (Hc : target_count s = S a).
  { unfold target_count. rewrite Es. destruct tsz as [|x tsz]; [discriminate|].
    cbn in E. now injection E as ->. }
  assert (Hn : forall v, (if rule_eqb TARGET r then v else stores s TARGET)
                         = stores s TARGET).
  { intros v. rewrite rule_eqb_neq; auto. }
  unfold shape.
  destruct (list_ (stores s r)) as [dl|] eqn:Ed;
    destruct (list_size (stores s r)) as [dsz|] eqn:Eds.
  - bind_step H. bind_step H. prim_inv H.
    split; [lia|]. split.
    { unfold target_count. cbn. now rewrite Hn. }
    split.
    { intros r' Hr'. cbn. now rewrite rule_eqb_neq. }
    cbn. rewrite rule_eqb_refl. cbn.
    repeat match goal with
           | U : update _ _ _ = Some _ |- _ =>
               rewrite (update_length _ _ _ _ U); clear U
           end.
    now rewrite !realloc_length, Hc.
  - prim_inv H. split; [lia|]. split; [reflexivity|]. split; [auto|].
    cbn. now rewrite Ed, Eds.
  - prim_inv H. split; [lia|]. split; [reflexivity|]. split; [auto|].
    cbn. now rewrite Ed, Eds.
  - prim_inv H. split; [lia|]. split.
    { unfold target_count. cbn. now rewrite Hn. }
    split.
    { intros r' Hr'. cbn. now rewrite rule_eqb_neq. }
    cbn. now rewrite rule_eqb_refl.
Qed.

(** Entering a target's block gives both tables room for every target,
    or for one target when they were not allocated before. *)
Lemma target_scope_block_opened_tables (s s' : xmk) (st : parse_state) :
  target_scope_block_opened s = Ret st s' ->
  level_tables s ->
  level_tables s' /\
  target_count s' = target_count s /\
  table_length DEPENDS_ON s'
  = (if table_length DEPENDS_ON s =? 0 then 1 else target_count s).
Proof.
  intros H J. unfold target_scope_block_opened in H.
  bind_step H. apply bind_inv in H as (u0 & s1 & H1 & H).
  destruct (list_size (stores s TARGET)) as [tsz|] eqn:Es.
  - prim_inv H1.
    apply bind_inv in H as (u1 & s1 & H1 & H).
    apply bind_inv in H as (u2 & s2 & H2 & H). prim_inv H.
    apply create_basic_tree_tables in H1 as (C1 & C2 & C3 & C4);
      [|discriminate].
    apply create_basic_tree_tables in H2 as (D1 & D2 & D3 & D4);
      [|discriminate].
    pose proof (C3 CREATED_USING ltac:(discriminate)) as X1.
    pose proof (D3 DEPENDS_ON ltac:(discriminate)) as X2.
    rewrite X1 in D4. rewrite <- X2 in C4. rewrite C2 in D2, D4.
    clear C3 D3 X1 D1.
    unfold level_tables, table_length.
    assert (L : forall (st : rule_store) k, shape st = (Some k, Some k) ->
                match list_ st with Some l => length l | None => 0 end = k).
    { intros [[l|] sz] k E; cbn in E; [|discriminate]. cbn.
      now injection E as -> _. }
    assert (N : forall (st : rule_store), shape st = (None, None) ->
                match list_ st with Some l => length l | None => 0 end = 0).
    { intros [[l|] sz] E; cbn in E; [discriminate|]. reflexivity. }
    destruct J as [[Jd Jc]|(k & Jd & Jc & Jk)].
    + rewrite Jd in C4. rewrite Jc in D4. cbn in C4, D4.
      split; [right; exists 1; repeat split; auto; lia|].
      split; [exact D2|].
      rewrite (L _ _ C4), (N _ Jd). reflexivity.
    + rewrite Jd in C4. rewrite Jc in D4. cbn in C4, D4.
      split; [right; exists (target_count s); repeat split; auto; lia|].
      split; [exact D2|].
      rewrite (L _ _ C4), (L _ _ Jd).
      destruct k; [lia|reflexivity].
  - prim_inv H1.
    apply bind_inv in H as (u1 & s1 & H1 & H).
    apply create_basic_tree_tables in H1 as (C1 & _); [|discriminate].
    unfold target_count in C1. cbn in C1. lia.
Qed.

Lemma level_tables_set_store (r : rule) (l' : list (ptr (list (ptr string))))
      (sz' : list (option nat)) (s : xmk) :
  level_tables s ->
  (r = DEPENDS_ON \/ r = CREATED_USING ->
   shape (s.(stores) r) = (Some (length l'), Some (length sz'))) ->
  (r = TARGET -> target_count s <= first_count sz') ->
  level_tables (set_store r (mkStore (Some l') (Some sz')) s).
Proof.
  intros J Hs Ht. unfold level_tables, target_count in *.
  destruct r; cbn.
  - exact J.
  - exact J.
  - specialize (Hs (or_introl eq_refl)).
    destruct J as [[Jd Jc]|(k & Jd & Jc & Jk)]; [congruence|].
    right. exists k. rewrite Jd in Hs. injection Hs as E1 E2.
    repeat split; auto; try lia. unfold shape. cbn. congruence.
  - specialize (Hs (or_intror eq_refl)).
    destruct J as [[Jd Jc]|(k & Jd & Jc & Jk)]; [congruence|].
    right. exists k. rewrite Jc in Hs. injection Hs as E1 E2.
    repeat split; auto; try lia. unfold shape. cbn. congruence.
  - specialize (Ht eq_refl).
    destruct J as [[Jd Jc]|(k & Jd & Jc & Jk)]; [now left|].
    right. exists k. repeat split; auto; try lia.
    unfold first_count in Ht. lia.
Qed.

Lemma stored_level (r : rule) (s : xmk)
      (l l' : list (ptr (list (ptr string)))) (sz sz' : list (option nat)) :
  level_tables s ->
  (s.(stores) r).(list_size) = Some sz ->
  ((s.(stores) r).(list_) = Some l /\ length l' = length l) \/
  (s.(stores) r).(list_) = None ->
  length sz' = length sz ->
  first_count sz <= first_count sz' ->
  level_tables (set_store r (mkStore (Some l') (Some sz')) s).
Proof.
  intros J Es El Hsz Hc. apply level_tables_set_store; auto.
  - intros Hr. unfold shape. rewrite Es.
    destruct El as [[El Hl]|El].
    + rewrite El. cbn. congruence.
    + exfalso. unfold level_tables, shape in J.
      destruct Hr as [-> | ->]; rewrite El, Es in J;
        destruct J as [[Jd Jc]|(k & Jd & Jc & Jk)]; discriminate.
  - intros ->. unfold target_count. now rewrite Es.
Qed.

(** Inversion of a whole run that returned, branch by branch. *)
Ltac run_inv H :=
  repeat first
    [ match type of H with
      | bind (bump _ _) _ _ = Ret _ _ =>
          let sz' := fresh "sz'" in
          let s1 := fresh "s" in
          let B := fresh "B" in
          apply bind_inv in H as (sz' & s1 & B & H);
          apply bump_inv in B as (-> & ? & ?)
      | bind _ _ _ = Ret _ _ => bind_step H
      | (match ?x with _ => _ end) _ = Ret _ _ =>
          destruct x eqn:?; try discriminate H
      end
    | progress prim_inv H ].

Lemma handle_list_tables (r : rule) (w : string) (st st' : parse_state)
      (nl b : bool) (s s' : xmk) :
  keeps level_tables (fun _ => True) target_scope_block_opened ->
  handle_list r w st nl s = Ret (b, st') s' ->
  level_tables s -> level_tables s'.
Proof.
  intros K H J. unfold handle_list in H.
  bind_step H. apply bind_inv in H as (tsz & s1 & H1 & H).
  destruct (list_size (stores s TARGET)) as [tsz0|] eqn:Ets; [|discriminate].
  prim_inv H1. clear H1.
  bind_step H. bind_step H.
  apply bind_inv in H as ([opened st1] & s1 & H2 & H).
  destruct opened.
  - prim_inv H.
    assert (KS : keeps level_tables (fun _ => True) (scope r w st)).
    { apply keeps_scope; auto. }
    specialize (KS s J). now rewrite H2 in KS.
  - apply scope_closed in H2 as ->.
    bind_step H.
    run_inv H;
      eapply stored_level; eauto;
      first [ left; split; [eassumption|]; eapply update_length; eauto
            | right; eassumption ].
  Unshelve. all: exact nil.
Qed.

Lemma L_add_target w : keeps level_tables (fun _ => True) (add_target w).
Proof.
  intros s J. destruct (add_target w s) as [u s'| | |] eqn:E; try exact I.
  apply add_target_tables in E as (Ed & Ec & En).
  unfold level_tables in *. rewrite Ed, Ec, En.
  destruct J as [J|(k & Jd & Jc & Jk)]; [now left|].
  right. exists k. repeat split; auto; lia.
Qed.

Lemma L_opened : keeps level_tables (fun _ => True) target_scope_block_opened.
Proof.
  intros s J.
  destruct (target_scope_block_opened s) as [st s'| | |] eqn:E; try exact I.
  now apply target_scope_block_opened_tables in E as (J' & _).
Qed.

Lemma L_list r w st nl : keeps level_tables (fun _ => True) (handle_list r w st nl).
Proof.
  intros s J.
  destruct (handle_list r w st nl s) as [[b st'] s'| | |] eqn:E; try exact I.
  eapply handle_list_tables; eauto. apply L_opened.
Qed.

Lemma steps_level_tables (fuel k : nat) (c : cursor) :
  keeps level_tables (fun _ => True) (steps fuel k c).
Proof.
  apply keeps_steps; try (intros; exact I); auto using L_add_target, L_opened, L_list;
    intros; assumption.
Qed.




(** ** The retries of [check_rule] end *)

Lemma total_ret {A} (a : A) : total (ret a).
Proof. intros s. discriminate. Qed.

Lemma total_bind {A B} (m : M A) (f : A -> M B) :
  total m -> (forall a, total (f a)) -> total (bind m f).
Proof.
  intros Hm Hf s. unfold bind. specialize (Hm s).
  destruct (m s); try discriminate; [apply Hf|contradiction].
Qed.

Lemma total_get : total get.
Proof. intros s. discriminate. Qed.

Lemma total_modify (f : xmk -> xmk) : total (modify f).
Proof. intros s. discriminate. Qed.

Lemma total_undefined {A} (u : ub) : total (@undefined A u).
Proof. intros s. discriminate. Qed.

Lemma total_FATAL_ERROR {A} (func fmt : string) : total (@FATAL_ERROR A func fmt).
Proof. intros s. discriminate. Qed.

Ltac total_step :=
  lazymatch goal with
  | |- total (bind _ _) => apply total_bind; [|intros ?]
  | |- total (ret _) => apply total_ret
  | |- total get => apply total_get
  | |- total (modify _) => apply total_modify
  | |- total (undefined _) => apply total_undefined
  | |- total (FATAL_ERROR _ _) => apply total_FATAL_ERROR
  | |- total (match ?x with _ => _ end) => destruct x
  | |- _ => solve [eauto]
  end.

Ltac total_auto := repeat total_step.

Lemma total_emit (e : event) : total (emit e).
Proof. apply total_modify. Qed.

Lemma total_load {A} (l : list A) (i : nat) : total (load l i).
Proof. unfold load. total_auto. Qed.

Lemma total_load0 {A} (l : list A) (i : nat) : total (load0 l i).
Proof. unfold load0. total_auto. Qed.

Lemma total_store {A} (l : list A) (i : nat) (a : A) : total (store l i a).
Proof. unfold store. total_auto. Qed.

Lemma total_deref {A} (p : ptr A) : total (deref p).
Proof. unfold deref. total_auto. Qed.

Lemma total_defined {A} (o : option A) : total (defined o).
Proof. unfold defined. total_auto. Qed.

Lemma total_in_bounds {A} (o : option A) : total (in_bounds o).
Proof. unfold in_bounds. total_auto. Qed.

Lemma total_some_or_null {A} (o : option A) : total (some_or_null o).
Proof. unfold some_or_null. total_auto. Qed.

Lemma total_before (k : nat) : total (before k).
Proof. unfold before. total_auto. Qed.

Lemma total_LOGV (func fmt : string) : total (LOGV func fmt).
Proof. unfold LOGV, verbose. total_auto. apply total_emit. Qed.

Lemma total_LOGVV (func fmt : string) : total (LOGVV func fmt).
Proof. unfold LOGVV, extra_verbose. total_auto. apply total_emit. Qed.

#[local] Hint Resolve total_emit total_load total_load0 total_store total_deref
  total_defined total_in_bounds total_some_or_null total_before total_LOGV
  total_LOGVV : core.

Lemma total_times (k : nat) (m : M unit) : total m -> total (times k m).
Proof. intros Hm. induction k; cbn [times]; total_auto. Qed.

Lemma total_repeated_from (t : string) (tn : list (ptr string)) (k : nat) :
  forall i, total (repeated_from t tn i k).
Proof. induction k; intros i; cbn [repeated_from]; total_auto. Qed.

#[local] Hint Resolve total_times total_repeated_from : core.

Lemma total_set_build_target (w : string) : total (set_build_target w).
Proof. unfold set_build_target. total_auto. Qed.

Lemma total_add_target (w : string) : total (add_target w).
Proof. unfold add_target. total_auto. Qed.

Lemma total_add_define (w : string) : total (add_define w).
Proof. unfold add_define. total_auto. Qed.

Lemma total_create_basic_tree (r : rule) : total (create_basic_tree r).
Proof. unfold create_basic_tree. total_auto. Qed.

#[local] Hint Resolve total_set_build_target total_add_target total_add_define
  total_create_basic_tree : core.

Lemma total_target_scope_block_opened : total target_scope_block_opened.
Proof. unfold target_scope_block_opened. total_auto. Qed.

#[local] Hint Resolve total_target_scope_block_opened : core.

Lemma total_scope (r : rule) (w : string) (st : parse_state) :
  total (scope r w st).
Proof.
  unfold scope. destruct r; cbn [syntax_rules scope_block_opened];
    unfold created_using_scope_block_opened, depends_on_scope_block_opened;
    total_auto.
Qed.

Lemma total_add_symbol (r : rule) (w : string) : total (add_symbol r w).
Proof.
  unfold add_symbol. destruct r; cbn [syntax_rules symbol_callback]; total_auto.
Qed.

Lemma total_bump (sz : list (option nat)) (i : nat) : total (bump sz i).
Proof. unfold bump. total_auto. Qed.

#[local] Hint Resolve total_scope total_add_symbol total_bump : core.

Lemma total_handle_list (r : rule) (w : string) (st : parse_state) (nl : bool) :
  total (handle_list r w st nl).
Proof. unfold handle_list. total_auto. Qed.

Lemma total_cells :
  total level /\ total get_step_i /\ total get_keyword_i /\ total get_recipe_i /\
  (forall k, total (set_level k)) /\ (forall v, total (set_step_i v)) /\
  (forall v, total (set_keyword_i v)) /\ (forall v, total (set_recipe_i v)).
Proof.
  unfold level, get_step_i, get_keyword_i, get_recipe_i, set_level, set_step_i,
    set_keyword_i, set_recipe_i.
  split; [total_auto|]. split; [total_auto|]. split; [total_auto|].
  split; [total_auto|]. split; [intros k; total_auto|].
  split; [intros v; total_auto|]. split; intros v; total_auto.
Qed.

Lemma total_reset_indices : total reset_indices.
Proof.
  destruct total_cells as (_ & _ & _ & _ & _ & ? & ? & ?).
  unfold reset_indices. total_auto.
Qed.

Lemma total_pop_level : total pop_level.
Proof.
  destruct total_cells as (? & _ & _ & _ & ? & _).
  unfold pop_level. total_auto.
Qed.

#[local] Hint Resolve total_handle_list total_reset_indices total_pop_level : core.

Lemma total_advance (rcp : list recipe) : total (advance rcp).
Proof.
  destruct total_cells as (_ & ? & _). unfold advance. total_auto.
Qed.

#[local] Hint Resolve total_advance : core.

Lemma not_out_of_fuel_bind {A B} (m : M A) (f : A -> M B) (s : xmk) :
  m s <> OutOfFuel ->
  (forall a s1, m s = Ret a s1 -> f a s1 <> OutOfFuel) ->
  bind m f s <> OutOfFuel.
Proof.
  intros Hm Hf. unfold bind. destruct (m s); try discriminate; auto.
Qed.

Lemma load0_inv {A} (l : list A) (i : nat) (s s' : xmk) (r : option A) :
  load0 l i s = Ret r s' -> s' = s /\ r = nth_error l i.
Proof.
  unfold load0, ret, undefined. destruct (nth_error l i).
  - intros H. now injection H as <- <-.
  - destruct (i =? length l); [|discriminate].
    intros H. now injection H as <- <-.
Qed.

Lemma get_cell_inv (f : xmk -> cells) (s s' : xmk) (v : nat) :
  (s0 <- get ;; in_bounds (cell (f s0) (recursion_level (lv s0)))) s = Ret v s' ->
  s' = s /\ cell (f s) (lvl s) = Some v.
Proof.
  unfold bind, get, in_bounds, lvl, ret, undefined.
  destruct (cell (f s) (recursion_level (lv s))); [|discriminate].
  intros H. now injection H as <- <-.
Qed.

Lemma check_rule_rec_fuel (fuel : nat) :
  forall (r : rule) (w : string) (st : parse_state) (nl : bool) (s : xmk),
    0 < fuel ->
    (forall ri, cell s.(lv).(recipe_i) (lvl s) = Some ri ->
                length (syntax_rules r).(recipe_list) < fuel + ri) ->
    check_rule_rec fuel r w st nl s <> OutOfFuel.
Proof.
  destruct total_cells as (T1 & T2 & T3 & T4 & T5 & T6 & T7 & T8).
  induction fuel as [|fuel IH]; intros r w st nl s Hpos Hri; [lia|].
  cbn [check_rule_rec].
  apply not_out_of_fuel_bind; [apply T4|]. intros ri s1 E.
  apply (get_cell_inv (fun x => recipe_i (lv x))) in E as [-> Ec]. specialize (Hri ri Ec).
  apply not_out_of_fuel_bind; [apply total_load0|]. intros rcp s1 E.
  apply load0_inv in E as [-> E].
  destruct rcp as [rcp|]; [|apply total_bind; auto using total_ret].
  assert (Hlt : ri < length (recipe_list (syntax_rules r))).
  { apply nth_error_Some. congruence. }
  apply not_out_of_fuel_bind; [apply T2|]. intros si s1 E1.
  apply (get_cell_inv (fun x => step_i (lv x))) in E1 as [-> E1].
  apply not_out_of_fuel_bind; [apply total_load|]. intros step s1 E2.
  apply load_inv in E2 as [-> _].
  destruct step.
  - apply not_out_of_fuel_bind; [apply T3|]. intros ki s1 E3.
    apply (get_cell_inv (fun x => keyword_i (lv x))) in E3 as [-> E3].
    apply not_out_of_fuel_bind; [apply total_load0|]. intros kw s1 E4.
    apply load0_inv in E4 as [-> E4].
    destruct kw as [kw|]; [|apply total_bind; auto using total_ret].
    destruct (keyword_matches w kw).
    + assert (T : total (set_step_i (S si) ;; set_keyword_i (S ki) ;;
                         st0 <- advance rcp ;; ret (true, st0)))
        by total_auto.
      apply T.
    + destruct ((strlen w =? 1) && is_prefix "}" w).
      * assert (T : total (pop_level ;; reset_indices ;; ret (false, SEARCHING)))
          by total_auto.
        apply T.
      * apply not_out_of_fuel_bind; [apply T8|]. intros u s1 E5.
        assert (Hl : lvl s < 2) by (eapply cell_lt; eauto).
        rewrite (set_recipe_i_run s (S ri) Hl) in E5. injection E5 as _ <-.
        apply IH; [lia|].
        intros ri2 Hc.
        assert (ri2 = S ri) as ->; [|lia].
        clear - Hc Ec. break_state s; unfold lvl in *; simpl in *;
          try discriminate; congruence.
  - assert (T : total (add_symbol r w ;; set_step_i (S si) ;;
                       st0 <- advance rcp ;; ret (true, st0)))
      by total_auto.
    apply T.
  - assert (T : total ('(handled, st0) <- handle_list r w st nl ;;
                       if handled then ret (true, st0)
                       else reset_indices ;; ret (false, SEARCHING)))
      by total_auto.
    apply T.
  - assert (T : total (k <- level ;;
                       (if k <? MAX_RECURSION then set_level (S k) else ret tt) ;;
                       scope r w st ;; ret (true, SEARCHING)))
      by total_auto.
    apply T.
  - assert (T : total (reset_indices ;; pop_level ;; ret (true, SEARCHING)))
      by total_auto.
    apply T.
Qed.

(** The fuel given to the retries of [check_rule] is never used up. *)
Lemma check_rule_total (r : rule) (w : string) (st : parse_state) (nl : bool) :
  total (check_rule r w st nl).
Proof.
  intros s. unfold check_rule. apply check_rule_rec_fuel; [lia|].
  intros ri _. lia.
Qed.

(** ** The earlier revision of the keyword test *)

(** XMK.C compares the first [strlen (keyword)] bytes only, so that a
    word that extends the keyword matches there; the test of this
    revision rejects it. *)
Lemma XMK_C_keyword_matches_prefix :
  keyword_matches_XMK_C "building" "build" = true /\
  keyword_matches "building" "build" = false.
Proof. split; reflexivity. Qed.
